(** * big-kafka-conn: a Kafka producer load generator (main.go)

    A shallow embedding of [main.go] and the properties of its record
    formatter, its rate counters, its configuration checks and its
    producer loop.

    Conventions.
    - Go's [int64] (and [int], taken as 64 bits wide as on amd64 and arm64)
      is a [Z] kept in the signed range by [Int64.wrap]; [int32] likewise
      with [Int32.wrap].
    - A [[]byte] is a [list ascii]; a Go [string] is a [string].
    - [os.Exit], [panic] and the effects on the process (standard error,
      the two package-level counters, the goroutines started, the records
      handed to the client) are threaded through a small state monad [M]
      whose computations may halt the process. *)

From Stdlib Require Import ZArith String Ascii Bool Lia List.
Import ListNotations.

Local Open Scope Z_scope.

(* ================================================================== *)
(** ** Fixed-width integers *)

Module Int64.

Definition modulus : Z := 2 ^ 64.
Definition half : Z := 2 ^ 63.
Definition min_int : Z := - half.
Definition max_int : Z := half - 1.

(** Two's-complement reduction into [min_int .. max_int]. *)
Definition wrap (z : Z) : Z := (z + half) mod modulus - half.

Definition in_range (z : Z) : Prop := min_int <= z <= max_int.

Definition add (a b : Z) : Z := wrap (a + b).

(** Go's [/] on integers truncates toward zero; division by zero is a
    run-time panic, reported here as [None]. *)
Definition quo (a b : Z) : option Z :=
  if b =? 0 then None else Some (wrap (Z.quot a b)).

(** Conversion [uint64(x)] of an [int64]. *)
Definition to_uint64 (z : Z) : Z := z mod modulus.

End Int64.

Module Int32.

Definition modulus : Z := 2 ^ 32.
Definition half : Z := 2 ^ 31.

(** Conversion [int32(x)] of an [int]: the low 32 bits, signed. *)
Definition wrap (z : Z) : Z := (z + half) mod modulus - half.

End Int32.

(* ================================================================== *)
(** ** Byte slices and the library functions used by [formatValue] *)

Definition bytes := list ascii.

(** [make([]byte, n)]: [n] zero bytes. *)
Definition make_bytes (n : Z) : bytes := repeat zero (Z.to_nat n).

(** The built-in [copy(dst, src)]: overwrites the first
    [min(len(dst), len(src))] bytes of [dst] with those of [src] and returns
    that count together with the updated [dst]. *)
Fixpoint copy (dst src : bytes) : nat * bytes :=
  match dst, src with
  | _ :: dst', s :: src' =>
      let (n, d) := copy dst' src' in (S n, s :: d)
  | _, _ => (O, dst)
  end.

(** The slice expression [v[n:]]: the bytes of [v] from index [n] on; a
    run-time panic ([None]) when [n > len(v)]. The result shares its
    storage with [v], which [write_from] accounts for. *)
Definition slice_from (v : bytes) (n : nat) : option bytes :=
  if (n <=? length v)%nat then Some (skipn n v) else None.

(** Writing through the sub-slice [v[n:]]: [v] with its bytes from index
    [n] on replaced by [tail]. *)
Definition write_from (v : bytes) (n : nat) (tail : bytes) : bytes :=
  firstn n v ++ tail.

(** ASCII digit of a value in [0..9]. *)
Definition digit (d : Z) : ascii := ascii_of_N (Z.to_N (48 + d)).

(** The digits of an unsigned value, least significant produced first and
    pushed in front of [acc], as [strconv] fills its buffer from the end.
    A [uint64] has at most 20 decimal digits, which bounds the loop. *)
Fixpoint formatBits (fuel : nat) (u : Z) (acc : bytes) : bytes :=
  match fuel with
  | O => digit (u mod 10) :: acc
  | S fuel' =>
      if u <? 10 then digit u :: acc
      else formatBits fuel' (u / 10) (digit (u mod 10) :: acc)
  end.

(** [strconv.AppendInt(dst, i, 10)] from Go's standard library: appends
    the decimal text of [i], with a leading minus sign when [i < 0]. The
    magnitude is taken in [uint64], so that the least [int64] is handled. *)
Definition AppendInt (dst : bytes) (i : Z) : bytes :=
  let neg := i <? 0 in
  let u := if neg then Int64.to_uint64 (- i) else Int64.to_uint64 i in
  let ds := formatBits 19 u [] in
  dst ++ (if neg then "-"%char :: ds else ds).

(* ================================================================== *)
(** ** [formatValue] *)

(** How a call that works on a slice ends. *)
Inductive outcome : Type :=
| Done (v : bytes)        (* returned; the slice now holds [v] *)
| Panicked                (* index out of range *)
| OutOfFuel.              (* the loop was still running *)

(** The loop [for n != len(v) { n += copy(v[n:], b) }]. *)
Fixpoint fill_loop (fuel : nat) (b : bytes) (n : nat) (v : bytes) : outcome :=
  if (n =? length v)%nat then Done v
  else
    match fuel with
    | O => OutOfFuel
    | S fuel' =>
        match slice_from v n with
        | None => Panicked
        | Some tl =>
            let (c, tl') := copy tl b in
            fill_loop fuel' b (n + c) (write_from v n tl')
        end
    end.

(** The tile [b]: the decimal text of [num] followed by one space. *)
Definition tile (num : Z) : bytes := AppendInt [] num ++ [" "%char].

(** [formatValue(num, v)], run with one unit of fuel per byte of [v]. *)
Definition formatValue (num : Z) (v : bytes) : outcome :=
  let b := tile num in
  let (n, v1) := copy v b in
  fill_loop (length v) b n v1.

(* ================================================================== *)
(** ** Strings: [strings.ToLower], [strings.Split], [fmt.Sprintf] *)

Local Open Scope string_scope.

Definition is_ascii_byte (c : ascii) : bool := (N_of_ascii c <? 128)%N.

Definition is_upper (c : ascii) : bool :=
  ((65 <=? N_of_ascii c) && (N_of_ascii c <=? 90))%N.

(** [c += 'a' - 'A'] for an upper-case ASCII letter. *)
Definition lower_byte (c : ascii) : ascii :=
  if is_upper c then ascii_of_N (N_of_ascii c + 32) else c.

Fixpoint string_forallb (p : ascii -> bool) (s : string) : bool :=
  match s with
  | EmptyString => true
  | String c r => p c && string_forallb p r
  end.

Fixpoint string_existsb (p : ascii -> bool) (s : string) : bool :=
  match s with
  | EmptyString => false
  | String c r => p c || string_existsb p r
  end.

Fixpoint string_map (f : ascii -> ascii) (s : string) : string :=
  match s with
  | EmptyString => EmptyString
  | String c r => String (f c) (string_map f r)
  end.

Section StringsToLower.

(** [strings.Map(unicode.ToLower, s)], which Go applies to a string with
    a byte outside ASCII; its Unicode tables are not part of this
    program and are left abstract. *)
Variable unicode_lower : string -> string.

(** [strings.ToLower]: an ASCII-only string is returned as it is when it
    has no upper-case letter and with [A-Z] shifted to [a-z] otherwise. *)
Definition ToLower (s : string) : string :=
  if string_forallb is_ascii_byte s then
    if string_existsb is_upper s then string_map lower_byte s else s
  else unicode_lower s.

End StringsToLower.

(** [strings.Split(s, ",")]. *)
Fixpoint Split (s : string) : list string :=
  match s with
  | EmptyString => [EmptyString]
  | String c r =>
      if Ascii.eqb c ","%char then EmptyString :: Split r
      else match Split r with
           | h :: t => String c h :: t
           | [] => [String c EmptyString]
           end
  end.

(** [fmt.Sprintf] for the two verbs used by this program, [%s] and [%v],
    each replaced by the next argument (already in its text form); an
    exhausted argument list prints Go's [%!v(MISSING)] marker. *)
Fixpoint Sprintf (fmt : string) (args : list string) : string :=
  match fmt with
  | EmptyString => EmptyString
  | String c r =>
      if Ascii.eqb c "%"%char then
        match r with
        | String k r' =>
            if Ascii.eqb k "s"%char || Ascii.eqb k "v"%char then
              match args with
              | a :: args' => a ++ Sprintf r' args'
              | [] => "%!" ++ String k "(MISSING)" ++ Sprintf r' []
              end
            else String c (String k (Sprintf r' args))
        | EmptyString => "%!(NOVERB)"
        end
      else String c (Sprintf r args)
  end.

(** The [error] interface, as far as this program looks at it: [nil], or
    an error with the text of its [Error()] method. *)
Definition error := option string.

(* ================================================================== *)
(** ** Configuration: the command-line flags after [flag.Parse] *)

Record Config : Type := {
  brokers : string;
  topic : string;
  clients : Z;
  recordSize : Z;
  compression : string;
  linger : Z;
  maxBatchSize : Z;
  logLevel : string
}.

(** The flags' default values. *)
Definition default_flags : Config := {|
  brokers := "localhost:9092";
  topic := EmptyString;
  clients := 1;
  recordSize := 100;
  compression := "none";
  linger := 0;
  maxBatchSize := 1000000;
  logLevel := EmptyString
|}.

Definition with_compression (cfg : Config) (s : string) : Config := {|
  brokers := brokers cfg; topic := topic cfg; clients := clients cfg;
  recordSize := recordSize cfg; compression := s; linger := linger cfg;
  maxBatchSize := maxBatchSize cfg; logLevel := logLevel cfg
|}.

Definition with_logLevel (cfg : Config) (s : string) : Config := {|
  brokers := brokers cfg; topic := topic cfg; clients := clients cfg;
  recordSize := recordSize cfg; compression := compression cfg;
  linger := linger cfg; maxBatchSize := maxBatchSize cfg; logLevel := s
|}.

(** The options of the [kgo] client that [main] builds. *)
Inductive LogLevel : Type :=
  LogLevelDebug | LogLevelInfo | LogLevelWarn | LogLevelError.

Inductive Codec : Type :=
  NoCompression | GzipCompression | SnappyCompression | Lz4Compression
| ZstdCompression.

Inductive Opt : Type :=
| SeedBrokers (addrs : list string)
| DefaultProduceTopic (t : string)
| MaxBufferedRecords (n : Z)
| BatchMaxBytes (n : Z)
| RequiredAcks_AllISRAcks
| WithLogger_BasicLogger_Stderr (l : LogLevel)
| Linger (d : Z)
| BatchCompression (c : Codec).

(* ================================================================== *)
(** ** The process *)

(** The two package-level counters. *)
Inductive counter : Type := RateRecs | RateBytes.

Inductive goroutine : Type :=
| GoPrintRate
| GoWorker (opts : list Opt).

Record World : Type := {
  stderr : string;              (* what was written to standard error *)
  exitCode : option Z;          (* set once the process has exited *)
  rateRecs : Z;
  rateBytes : Z;
  reports : list (Z * Z);       (* (bytes, recs) of each line of printRate *)
  goroutines : list goroutine;  (* started by a go statement, in order *)
  submitted : list bytes        (* values handed to client.Produce *)
}.

Definition initial_world : World := {|
  stderr := EmptyString; exitCode := None; rateRecs := 0; rateBytes := 0;
  reports := []; goroutines := []; submitted := []
|}.

(** How a computation ends: it returns a value, it ends the process, or it
    does not return (blocked for good, or a loop out of fuel). *)
Inductive result (A : Type) : Type :=
| Val (a : A)
| Exited
| Running.

Arguments Val {A} a.
Arguments Exited {A}.
Arguments Running {A}.

Definition M (A : Type) : Type := World -> result A * World.

Definition ret {A} (a : A) : M A := fun w => (Val a, w).

Definition bind {A B} (c : M A) (k : A -> M B) : M B :=
  fun w =>
    match c w with
    | (Val a, w') => k a w'
    | (Exited, w') => (Exited, w')
    | (Running, w') => (Running, w')
    end.

Declare Scope go_scope.
Delimit Scope go_scope with go.
Notation "x <- c ;; k" := (bind c (fun x => k))
  (at level 61, c at next level, right associativity) : go_scope.
Notation "c ;; k" := (bind c (fun _ => k))
  (at level 61, right associativity) : go_scope.
Local Open Scope go_scope.

(** A goroutine gets to run a computation only while the process lives. *)
Definition run {A} (c : M A) (w : World) : World :=
  match exitCode w with
  | Some _ => w
  | None => snd (c w)
  end.

(** The process after it wrote [text] to standard error and exited. *)
Definition exited (w : World) (text : string) (code : Z) : World := {|
  stderr := stderr w ++ text; exitCode := Some code;
  rateRecs := rateRecs w; rateBytes := rateBytes w;
  reports := reports w; goroutines := goroutines w;
  submitted := submitted w
|}.

Definition set_reports (w : World) (rs : list (Z * Z)) : World := {|
  stderr := stderr w; exitCode := exitCode w;
  rateRecs := rateRecs w; rateBytes := rateBytes w;
  reports := rs; goroutines := goroutines w; submitted := submitted w
|}.

Definition set_goroutines (w : World) (gs : list goroutine) : World := {|
  stderr := stderr w; exitCode := exitCode w;
  rateRecs := rateRecs w; rateBytes := rateBytes w;
  reports := reports w; goroutines := gs; submitted := submitted w
|}.

Definition set_submitted (w : World) (vs : list bytes) : World := {|
  stderr := stderr w; exitCode := exitCode w;
  rateRecs := rateRecs w; rateBytes := rateBytes w;
  reports := reports w; goroutines := goroutines w; submitted := vs
|}.

(** [fmt.Fprintf(os.Stderr, ...)] followed by [os.Exit(code)]. *)
Definition exit_with (text : string) (code : Z) {A} : M A :=
  fun w => (Exited, exited w text code).

Definition newline : string := String "010"%char EmptyString.

(** [die(msg, args...)]. *)
Definition die {A} (msg : string) (args : list string) : M A :=
  exit_with (Sprintf (msg ++ newline) args) 1.

(** [chk(err, msg, args...)]. *)
Definition chk (err : error) (msg : string) (args : list string) : M unit :=
  match err with
  | Some _ => die msg args
  | None => ret tt
  end.

(** An uncaught run-time panic: the Go runtime prints it and exits with
    status 2. *)
Definition panic {A} (text : string) : M A :=
  exit_with ("panic: " ++ text ++ newline) 2.

(** The text that [%v] prints for an error value. *)
Definition error_text (err : error) : string :=
  match err with
  | Some e => e
  | None => "<nil>"
  end.

(* ================================================================== *)
(** ** The rate counters: [sync/atomic] on [rateRecs] and [rateBytes] *)

Local Close Scope string_scope.

Definition load (a : counter) (w : World) : Z :=
  match a with
  | RateRecs => rateRecs w
  | RateBytes => rateBytes w
  end.

Definition store (a : counter) (z : Z) (w : World) : World :=
  match a with
  | RateRecs =>
      {| stderr := stderr w; exitCode := exitCode w;
         rateRecs := z; rateBytes := rateBytes w;
         reports := reports w; goroutines := goroutines w;
         submitted := submitted w |}
  | RateBytes =>
      {| stderr := stderr w; exitCode := exitCode w;
         rateRecs := rateRecs w; rateBytes := z;
         reports := reports w; goroutines := goroutines w;
         submitted := submitted w |}
  end.

(** [atomic.AddInt64(&a, delta)]: adds in one step and returns the new
    value. *)
Definition AddInt64 (a : counter) (delta : Z) : M Z :=
  fun w =>
    let z := Int64.add (load a w) delta in
    (Val z, store a z w).

(** [atomic.SwapInt64(&a, new)]: stores [new] in one step and returns the
    old value. *)
Definition SwapInt64 (a : counter) (new : Z) : M Z :=
  fun w => (Val (load a w), store a new w).

(** [fmt.Printf] of [printRate], kept as the two integers it is given:
    the program divides them as floating-point numbers for display. *)
Definition print_rate (bytes recs : Z) : M unit :=
  fun w => (Val tt, set_reports w (reports w ++ [(bytes, recs)])).

(** The body of the loop of [printRate], run at each tick; it returns
    the pair [(recs, bytes)] it read. *)
Definition printRate_tick : M (Z * Z) :=
  recs <- SwapInt64 RateRecs 0 ;;
  bytes <- SwapInt64 RateBytes 0 ;;
  print_rate bytes recs ;;
  ret (recs, bytes).

(** The function literal given to [client.Produce], called by the client
    with the outcome of one record. *)
Definition produce_callback (cfg : Config) (err : error) : M unit :=
  chk err "produce error: %v" [error_text err] ;;
  AddInt64 RateRecs 1 ;;
  AddInt64 RateBytes (Int64.wrap (recordSize cfg)) ;;
  ret tt.

(* ================================================================== *)
(** ** [main] *)

(** The statement [go f()]. *)
Definition go (g : goroutine) : M unit :=
  fun w => (Val tt, set_goroutines w (goroutines w ++ [g])).

(** A call that never returns, such as [wg.Wait()] on workers that loop
    forever. *)
Definition block_forever {A} : M A := fun w => (Running, w).

(** Integer division of two [int]s, with Go's panic on a zero divisor. *)
Definition int_quo (a b : Z) : M Z :=
  match Int64.quo a b with
  | Some q => ret q
  | None => panic "runtime error: integer divide by zero"
  end.

(** The loop [for i := 0; i < *clients; i++ { wg.Add(1); go func() {...}() }],
    whose body does not read [i]: one worker per round. *)
Fixpoint start_workers (n : nat) (opts : list Opt) : M unit :=
  match n with
  | O => ret tt
  | S n' => go (GoWorker opts) ;; start_workers n' opts
  end.

Section Main.

Variable unicode_lower : string -> string.

(** [switch strings.ToLower( *logLevel )]. *)
Definition logLevel_switch (cfg : Config) (opts : list Opt) : M (list Opt) :=
  let s := ToLower unicode_lower (logLevel cfg) in
  if String.eqb s EmptyString then ret opts
  else if String.eqb s "debug" then
    ret (opts ++ [WithLogger_BasicLogger_Stderr LogLevelDebug])
  else if String.eqb s "info" then
    ret (opts ++ [WithLogger_BasicLogger_Stderr LogLevelInfo])
  else if String.eqb s "warn" then
    ret (opts ++ [WithLogger_BasicLogger_Stderr LogLevelWarn])
  else if String.eqb s "error" then
    ret (opts ++ [WithLogger_BasicLogger_Stderr LogLevelError])
  else die "unrecognized log level %s" [logLevel cfg].

(** [switch strings.ToLower( *compression )]. *)
Definition compression_switch (cfg : Config) (opts : list Opt)
  : M (list Opt) :=
  let s := ToLower unicode_lower (compression cfg) in
  if String.eqb s "none" then
    ret (opts ++ [BatchCompression NoCompression])
  else if String.eqb s "gzip" then
    ret (opts ++ [BatchCompression GzipCompression])
  else if String.eqb s "snappy" then
    ret (opts ++ [BatchCompression SnappyCompression])
  else if String.eqb s "lz4" then
    ret (opts ++ [BatchCompression Lz4Compression])
  else if String.eqb s "zstd" then
    ret (opts ++ [BatchCompression ZstdCompression])
  else die "unrecognized compression %s" [compression cfg].

(** [main] after [flag.Parse()]. *)
Definition main (cfg : Config) : M unit :=
  (if recordSize cfg <=? 0
   then die "record bytes must be larger than zero" []
   else ret tt) ;;
  q <- int_quo (Z.shiftl 50 20) (recordSize cfg) ;;
  let opts :=
    [ SeedBrokers (Split (brokers cfg));
      DefaultProduceTopic (topic cfg);
      MaxBufferedRecords (Int64.add q 1);
      BatchMaxBytes (Int32.wrap (maxBatchSize cfg));
      RequiredAcks_AllISRAcks ] in
  opts <- logLevel_switch cfg opts ;;
  let opts := if linger cfg =? 0 then opts else opts ++ [Linger (linger cfg)] in
  opts <- compression_switch cfg opts ;;
  (if clients cfg <=? 0
   then die "number of clients must be positive" []
   else ret tt) ;;
  go GoPrintRate ;;
  start_workers (Z.to_nat (clients cfg)) opts ;;
  block_forever.

End Main.

(* ================================================================== *)
(** ** The producer goroutine *)

(** [client.Produce(ctx, r, callback)]: hands the record to the client and
    returns; the client calls the callback later. *)
Definition Produce (value : bytes) : M unit :=
  fun w => (Val tt, set_submitted w (submitted w ++ [value])).

(** A call of [formatValue] on a fresh slice, inside the process. *)
Definition call_formatValue (num : Z) (v : bytes) : M bytes :=
  match formatValue num v with
  | Done v' => ret v'
  | Panicked => panic "runtime error: slice bounds out of range"
  | OutOfFuel => block_forever
  end.

(** One round of the worker's [for { ... }]; takes and returns [num]. *)
Definition produce_once (cfg : Config) (num : Z) : M Z :=
  value <- call_formatValue num (make_bytes (recordSize cfg)) ;;
  Produce value ;;
  ret (Int64.add num 1).

(** The first [k] rounds of the loop, from the counter value [num]. *)
Fixpoint produce_loop (cfg : Config) (k : nat) (num : Z) : M Z :=
  match k with
  | O => ret num
  | S k' => num' <- produce_once cfg num ;; produce_loop cfg k' num'
  end.

(** The goroutine of one client, up to its [k]-th round; [new_client] is
    the error result of [kgo.NewClient]. *)
Definition worker (cfg : Config) (new_client : error) (k : nat) : M Z :=
  chk new_client "unable to initialize client: %v" [error_text new_client] ;;
  produce_loop cfg k 0.

(* ================================================================== *)
(** ** Concurrent runs of the counters

    Every access to the counters is one atomic operation, and Go's atomics
    are sequentially consistent: a concurrent run is one sequence of the
    operations of all goroutines, each goroutine's own in program order. *)

Inductive atomic_op : Type :=
| OpAdd (a : counter) (delta : Z)
| OpSwap (a : counter) (new : Z).

(** Runs a sequence of operations; returns what each swap read, in order
    and tagged with its counter, and the final state. *)
Fixpoint exec_trace (tr : list atomic_op) (w : World)
  : list (counter * Z) * World :=
  match tr with
  | [] => ([], w)
  | OpAdd a d :: tr' => exec_trace tr' (snd (AddInt64 a d w))
  | OpSwap a n :: tr' =>
      let (old, w') := (load a w, snd (SwapInt64 a n w)) in
      let (outs, w'') := exec_trace tr' w' in
      ((a, old) :: outs, w'')
  end.

(** The operations of a successful callback, and of one tick. *)
Definition callback_ops (size : Z) : list atomic_op :=
  [OpAdd RateRecs 1; OpAdd RateBytes (Int64.wrap size)].

Definition tick_ops : list atomic_op :=
  [OpSwap RateRecs 0; OpSwap RateBytes 0].

(** [interleaving ts tr]: [tr] merges the sequences [ts], one per
    goroutine, keeping the order inside each. *)
Inductive interleaving {A : Type} : list (list A) -> list A -> Prop :=
| interleaving_done : forall ts,
    Forall (fun t => t = []) ts -> interleaving ts []
| interleaving_step : forall ts1 x t ts2 tr,
    interleaving (ts1 ++ t :: ts2) tr ->
    interleaving (ts1 ++ (x :: t) :: ts2) (x :: tr).

Definition counter_eqb (a b : counter) : bool :=
  match a, b with
  | RateRecs, RateRecs | RateBytes, RateBytes => true
  | _, _ => false
  end.

(** The sum of what the swaps of counter [a] returned. *)
Fixpoint drained (a : counter) (outs : list (counter * Z)) : Z :=
  match outs with
  | [] => 0
  | (b, z) :: outs' =>
      (if counter_eqb a b then z else 0) + drained a outs'
  end.

(** What one operation puts into counter [a]: the amount of an add, the
    value a swap stores. *)
Definition contrib (a : counter) (o : atomic_op) : Z :=
  match o with
  | OpAdd b d => if counter_eqb a b then d else 0
  | OpSwap b n => if counter_eqb a b then n else 0
  end.

(** The sum of what a sequence of operations puts into counter [a]. *)
Fixpoint added (a : counter) (tr : list atomic_op) : Z :=
  match tr with
  | [] => 0
  | o :: tr' => contrib a o + added a tr'
  end.

(** The same over the sequences of several goroutines. *)
Definition added_all (a : counter) (ts : list (list atomic_op)) : Z :=
  fold_right (fun t s => added a t + s) 0 ts.

(** The operations of a goroutine that runs [m] successful callbacks one
    after the other, and of a reporter that ticks [d] times. *)
Definition ack_ops (m : nat) (size : Z) : list atomic_op :=
  concat (repeat (callback_ops size) m).

Definition reporter_ops (d : nat) : list atomic_op :=
  concat (repeat tick_ops d).

(** What one successful callback puts into counter [a]. *)
Definition per_ack (a : counter) (size : Z) : Z :=
  match a with
  | RateRecs => 1
  | RateBytes => Int64.wrap size
  end.

(* ================================================================== *)
(** ** Notions used to state the properties *)

(** The values that the two switches of [main] recognise. *)
Definition compression_names : list string :=
  ["none"; "gzip"; "snappy"; "lz4"; "zstd"]%string.

Definition logLevel_names : list string :=
  [EmptyString; "debug"; "info"; "warn"; "error"]%string.

(** A configuration that passes every check of [main]. *)
Definition valid_config (unicode_lower : string -> string) (cfg : Config)
  : Prop :=
  0 < recordSize cfg /\
  In (ToLower unicode_lower (logLevel cfg)) logLevel_names /\
  In (ToLower unicode_lower (compression cfg)) compression_names /\
  0 < clients cfg.


(** The tile repeated [k] times. *)
Definition repeat_tile (b : bytes) (k : nat) : bytes := concat (repeat b k).

(** The tile repeated and cut to [size] bytes. *)
Definition tiled (b : bytes) (size : nat) : bytes :=
  firstn size (repeat_tile b size).

(** [v] agrees with the tiling of [b] on its first [n] bytes. *)
Definition tiled_upto (b v : bytes) (n : nat) : Prop :=
  forall i, (i < n)%nat -> nth_error v i = nth_error b (i mod length b).

Definition is_digit (c : ascii) : bool :=
  ((48 <=? N_of_ascii c) && (N_of_ascii c <=? 57))%N.

Definition digit_value (c : ascii) : Z := Z.of_N (N_of_ascii c) - 48.

(** The number that a string of digits denotes. *)
Definition decimal_value (ds : bytes) : Z :=
  fold_left (fun a c => 10 * a + digit_value c) ds 0.

(** [ds] is the decimal text of [z]: digits only, at least one, denoting
    [z], and with no leading zero except for the text [0] itself. *)
Definition decimal_text (ds : bytes) (z : Z) : Prop :=
  ds <> [] /\
  Forall (fun c => is_digit c = true) ds /\
  decimal_value ds = z /\
  (hd_error ds = Some "0"%char -> ds = ["0"%char]).


(** The Unicode mapping that leaves every string as it is, for runs on
    ASCII flag values, where [strings.ToLower] does not consult it. *)
Definition ascii_only (s : string) : string := s.


(** [c] may stand in a formatted record: a digit, the minus sign or the
    space between two tiles. *)
Definition is_record_char (c : ascii) : bool :=
  is_digit c || Ascii.eqb c "-"%char || Ascii.eqb c " "%char.

(** The flag value that selects a codec, and the one that selects a
    logger level. *)
Definition codec_name (c : Codec) : string :=
  match c with
  | NoCompression => "none"
  | GzipCompression => "gzip"
  | SnappyCompression => "snappy"
  | Lz4Compression => "lz4"
  | ZstdCompression => "zstd"
  end.

Definition level_name (l : LogLevel) : string :=
  match l with
  | LogLevelDebug => "debug"
  | LogLevelInfo => "info"
  | LogLevelWarn => "warn"
  | LogLevelError => "error"
  end.

(** Flags with a maximum batch size one above the largest [int32]. *)
Definition wide_batch_flags : Config := {|
  brokers := "localhost:9092"; topic := "t"; clients := 1; recordSize := 100;
  compression := "none"; linger := 0; maxBatchSize := 2 ^ 31;
  logLevel := EmptyString
|}.

(** The first [ticks] rounds of the loop of [printRate], one per tick of
    the timer. *)
Fixpoint printRate (ticks : nat) : M unit :=
  match ticks with
  | O => ret tt
  | S ticks' => printRate_tick ;; printRate ticks'
  end.

(** A text without a comma. *)
Definition no_comma (s : string) : bool :=
  negb (string_existsb (Ascii.eqb ","%char) s).

(** Every check fails at once. *)
Definition all_wrong_flags : Config := {|
  brokers := "localhost:9092"; topic := "t"; clients := 0; recordSize := 0;
  compression := "bogus"; linger := 0; maxBatchSize := 1000000;
  logLevel := "bogus"
|}.

(** Only the record size is right. *)
Definition three_wrong_flags : Config := {|
  brokers := "localhost:9092"; topic := "t"; clients := 0; recordSize := 1;
  compression := "bogus"; linger := 0; maxBatchSize := 1000000;
  logLevel := "bogus"
|}.


(* ================================================================== *)
(** * Properties *)

(** ** Arithmetic of [int64] *)

Module Int64Facts.
Import Int64.


Lemma wrap_small (z : Z) : in_range z -> wrap z = z.
Proof.
  unfold in_range, wrap, min_int, max_int, modulus, half. intros H.
  rewrite Z.mod_small; lia.
Qed.

(** [wrap] moves its argument by a multiple of [2^64]. *)
Lemma wrap_shift (z : Z) : exists k, wrap z = z + k * modulus.
Proof.
  unfold wrap. exists (- ((z + half) / modulus)).
  pose proof (Z.div_mod (z + half) modulus). unfold modulus in *. lia.
Qed.

Lemma wrap_congr (x y k : Z) : x = y + k * modulus -> wrap x = wrap y.
Proof.
  intros ->. unfold wrap.
  replace (y + k * modulus + half) with (y + half + k * modulus) by lia.
  now rewrite Z.mod_add by (unfold modulus; lia).
Qed.

Lemma add_wrap_r (a b : Z) : add a (wrap b) = add a b.
Proof.
  unfold add. destruct (wrap_shift b) as [k Hk].
  apply (wrap_congr _ _ k). lia.
Qed.

End Int64Facts.

Import Int64Facts.

(** *** Runs of atomic operations *)

Lemma load_store (a b : counter) (z : Z) (w : World) :
  load a (store b z w) = if counter_eqb a b then z else load a w.
Proof. destruct a, b; reflexivity. Qed.


(** The callback without an error changes the process exactly as its two
    atomic operations do, and a tick reads what its two swaps read. *)
Lemma callback_runs_callback_ops (cfg : Config) (w : World) :
  produce_callback cfg None w =
  (Val tt, snd (exec_trace (callback_ops (recordSize cfg)) w)).
Proof. reflexivity. Qed.

Lemma tick_runs_tick_ops (w : World) :
  exists r b w',
    exec_trace tick_ops w = ([(RateRecs, r); (RateBytes, b)], w') /\
    printRate_tick w = (Val (r, b), set_reports w' (reports w' ++ [(b, r)])).
Proof. do 3 eexists. split; reflexivity. Qed.

(** Conservation modulo [2^64]: what the swaps took out of a counter plus
    what it holds is what it held plus what was put in. *)
Lemma exec_trace_conserves (a : counter) (tr : list atomic_op) :
  forall w outs w',
    exec_trace tr w = (outs, w') ->
    exists k, drained a outs + load a w' =
              load a w + added a tr + k * Int64.modulus.
Proof.
  induction tr as [|[b d|b n] tr IH]; intros w outs w' E; simpl in E.
  - injection E as <- <-. exists 0. simpl. lia.
  - destruct (IH _ _ _ E) as [k Hk]. unfold AddInt64 in Hk. simpl in Hk.
    rewrite load_store in Hk. simpl.
    destruct (counter_eqb a b) eqn:Eab.
    + assert (b = a) as -> by (destruct a, b; congruence || discriminate).
      destruct (wrap_shift (load a w + d)) as [k' Hk'].
      unfold Int64.add in Hk. exists (k + k'). lia.
    + exists k. lia.
  - destruct (exec_trace tr _) as [o1 w1] eqn:E1. injection E as <- <-.
    destruct (IH _ _ _ E1) as [k Hk]. unfold SwapInt64 in Hk. simpl in Hk.
    rewrite load_store in Hk. simpl.
    destruct (counter_eqb a b) eqn:Eab.
    + assert (b = a) as -> by (destruct a, b; congruence || discriminate).
      exists k. lia.
    + exists k. lia.
Qed.

Lemma added_nonneg (a : counter) (tr : list atomic_op) :
  Forall (fun o => 0 <= contrib a o) tr -> 0 <= added a tr.
Proof. induction 1; simpl; lia. Qed.


(** *** Interleavings *)

Lemma added_all_app (a : counter) (ts1 ts2 : list (list atomic_op)) :
  added_all a (ts1 ++ ts2) = added_all a ts1 + added_all a ts2.
Proof. induction ts1 as [|t ts1 IH]; simpl; [trivial | rewrite IH; lia]. Qed.

Lemma interleaving_added (a : counter) ts tr :
  interleaving ts tr -> added a tr = added_all a ts.
Proof.
  induction 1 as [ts Hall | ts1 x t ts2 tr _ IH].
  - induction Hall as [|t ts Ht _ IHall]; simpl; trivial.
    subst t. simpl in *. lia.
  - simpl. rewrite IH, !added_all_app. simpl. lia.
Qed.

Lemma interleaving_Forall {A} (P : A -> Prop) (ts : list (list A)) tr :
  interleaving ts tr -> Forall (Forall P) ts -> Forall P tr.
Proof.
  induction 1 as [ts Hall | ts1 x t ts2 tr _ IH]; intros HP.
  - constructor.
  - apply Forall_app in HP as [H1 H2].
    inversion H2 as [|? ? Hxt H2']; subst.
    inversion Hxt; subst.
    constructor; trivial.
    apply IH. apply Forall_app. split; trivial. now constructor.
Qed.



(** *** The sequences of the callbacks and of the reporter *)

Lemma added_app (a : counter) (t1 t2 : list atomic_op) :
  added a (t1 ++ t2) = added a t1 + added a t2.
Proof. induction t1 as [|o t1 IH]; simpl; [trivial | rewrite IH; lia]. Qed.

Lemma added_callback (a : counter) (size : Z) :
  added a (callback_ops size) = per_ack a size.
Proof. destruct a; simpl; lia. Qed.

Lemma added_ack_ops (a : counter) (m : nat) (size : Z) :
  added a (ack_ops m size) = Z.of_nat m * per_ack a size.
Proof.
  unfold ack_ops. induction m as [|m IH].
  - reflexivity.
  - cbn [repeat concat]. rewrite added_app, IH, added_callback. lia.
Qed.

Lemma added_reporter (a : counter) (d : nat) : added a (reporter_ops d) = 0.
Proof.
  unfold reporter_ops. induction d as [|d IH]; [reflexivity|].
  cbn [repeat concat]. rewrite added_app, IH. now destruct a.
Qed.

Lemma added_all_repeat (a : counter) (t : list atomic_op) (n : nat) :
  added_all a (repeat t n) = Z.of_nat n * added a t.
Proof.
  induction n as [|n IH]; [reflexivity|].
  change (added_all a (repeat t (S n)))
    with (added a t + added_all a (repeat t n)).
  rewrite IH. lia.
Qed.

Lemma nonneg_ack_ops (a : counter) (m : nat) (size : Z) :
  0 <= per_ack a size ->
  Forall (fun o => 0 <= contrib a o) (ack_ops m size).
Proof.
  intros Hs. unfold ack_ops. induction m as [|m IH]; [constructor|].
  cbn [repeat concat]. apply Forall_app. split; [|exact IH].
  destruct a; repeat constructor; simpl in *; lia.
Qed.

Lemma nonneg_reporter (a : counter) (d : nat) :
  Forall (fun o => 0 <= contrib a o) (reporter_ops d).
Proof.
  unfold reporter_ops. induction d as [|d IH]; [constructor|].
  cbn [repeat concat]. apply Forall_app. split; [|exact IH].
  destruct a; repeat constructor; simpl; lia.
Qed.







Lemma printRate_tick_eq (w : World) :
  exists w',
    printRate_tick w = (Val (rateRecs w, rateBytes w), w') /\
    rateRecs w' = 0 /\ rateBytes w' = 0 /\
    reports w' = reports w ++ [(rateBytes w, rateRecs w)].
Proof. eexists. repeat split; reflexivity. Qed.






(** ** The record formatter *)

Section Copy.

Lemma copy_count (dst src : bytes) :
  fst (copy dst src) = Nat.min (length dst) (length src).
Proof.
  revert src; induction dst as [|d dst IH]; intros [|s src]; simpl; trivial.
  specialize (IH src). destruct (copy dst src); simpl in *; congruence.
Qed.

Lemma copy_result (dst src : bytes) :
  snd (copy dst src) = firstn (length dst) src ++ skipn (length src) dst.
Proof.
  revert src; induction dst as [|d dst IH]; intros [|s src]; simpl; trivial.
  specialize (IH src). destruct (copy dst src); simpl in *; congruence.
Qed.

Lemma copy_length (dst src : bytes) :
  length (snd (copy dst src)) = length dst.
Proof.
  rewrite copy_result, length_app, length_firstn, length_skipn. lia.
Qed.

(** A copy from a non-empty source into a non-empty destination moves
    at least one byte. *)
Lemma copy_progress (dst src : bytes) :
  dst <> [] -> src <> [] -> (0 < fst (copy dst src))%nat.
Proof.
  rewrite copy_count. destruct dst, src; simpl; try congruence; lia.
Qed.

End Copy.

Lemma mod_offset (n i m : nat) :
  (n mod m = 0 -> n <= i -> i - n < m -> i mod m = i - n)%nat.
Proof.
  intros Hn Hle Hlt.
  assert (Hm : m <> O) by lia.
  pose proof (Nat.div_mod_eq n m) as Hd. rewrite Hn, Nat.add_0_r in Hd.
  replace i with ((i - n) + (n / m) * m)%nat at 1 by lia.
  rewrite Nat.Div0.mod_add. now apply Nat.mod_small.
Qed.

Lemma fill_loop_tiles (b : bytes) :
  b <> [] ->
  forall fuel n v,
    (n <= length v)%nat ->
    (length v - n <= fuel)%nat ->
    n = length v \/ (n mod length b = 0)%nat ->
    tiled_upto b v n ->
    exists out,
      fill_loop fuel b n v = Done out /\
      length out = length v /\
      tiled_upto b out (length v).
Proof.
  intros Hb.
  assert (Hlb : (0 < length b)%nat) by (destruct b; simpl; [congruence | lia]).
  induction fuel as [|fuel IH]; intros n v Hn Hfuel Hal Hpre; simpl.
  - assert (n = length v) by lia. subst n.
    rewrite Nat.eqb_refl. eauto.
  - destruct (Nat.eqb_spec n (length v)) as [->|Hne]; [eauto|].
    destruct Hal as [?|Hal]; [contradiction|].
    unfold slice_from.
    destruct (Nat.leb_spec n (length v)) as [_|?]; [|lia].
    pose proof (copy_count (skipn n v) b) as Hc.
    pose proof (copy_result (skipn n v) b) as Hr.
    destruct (copy (skipn n v) b) as [c tl'] eqn:Ecopy. simpl in Hc, Hr.
    rewrite length_skipn in Hc, Hr.
    assert (Hlen : length (write_from v n tl') = length v).
    { unfold write_from. subst tl'.
      rewrite !length_app, !length_firstn, !length_skipn. lia. }
    destruct (IH (n + c)%nat (write_from v n tl')) as (out & Hout & Hlo & Hto).
    + rewrite Hlen. lia.
    + rewrite Hlen. lia.
    + rewrite Hlen.
      destruct (Nat.min_spec (length v - n) (length b)) as [[? Hm]|[? Hm]];
        rewrite Hm in Hc; subst c.
      * left. lia.
      * right. replace (n + length b)%nat with (n + 1 * length b)%nat by lia.
        now rewrite Nat.Div0.mod_add.
    + intros i Hi. unfold write_from.
      destruct (Nat.lt_ge_cases i n) as [Hlt|Hge].
      * rewrite nth_error_app1 by (rewrite length_firstn; lia).
        rewrite nth_error_firstn.
        destruct (Nat.ltb_spec i n); [|lia]. now apply Hpre.
      * rewrite nth_error_app2 by (rewrite length_firstn; lia).
        rewrite length_firstn, Nat.min_l by lia.
        subst tl'.
        rewrite nth_error_app1 by (rewrite length_firstn; lia).
        rewrite nth_error_firstn.
        destruct (Nat.ltb_spec (i - n) (length v - n)); [|lia].
        f_equal. symmetry. apply mod_offset; lia.
    + rewrite Hlen in Hlo, Hto. exists out. auto.
Qed.

Lemma repeat_tile_length (b : bytes) (k : nat) :
  length (repeat_tile b k) = (k * length b)%nat.
Proof.
  unfold repeat_tile. induction k as [|k IH]; simpl; trivial.
  rewrite length_app, IH. lia.
Qed.

Lemma repeat_tile_nth (b : bytes) (k i : nat) :
  (i < k * length b)%nat ->
  nth_error (repeat_tile b k) i = nth_error b (i mod length b).
Proof.
  unfold repeat_tile. revert i; induction k as [|k IH]; intros i Hi; simpl in *.
  - lia.
  - destruct (Nat.lt_ge_cases i (length b)) as [Hlt|Hge].
    + rewrite nth_error_app1 by trivial. now rewrite Nat.mod_small.
    + rewrite nth_error_app2 by trivial. rewrite IH by lia.
      f_equal.
      replace i with ((i - length b) + 1 * length b)%nat at 2 by lia.
      now rewrite Nat.Div0.mod_add.
Qed.

Lemma tiled_length (b : bytes) (size : nat) :
  b <> [] -> length (tiled b size) = size.
Proof.
  intros Hb. unfold tiled. rewrite length_firstn, repeat_tile_length.
  destruct b; [congruence|]. simpl. nia.
Qed.

Lemma tiled_nth (b : bytes) (size : nat) :
  b <> [] -> tiled_upto b (tiled b size) size.
Proof.
  intros Hb i Hi. unfold tiled. rewrite nth_error_firstn.
  destruct (Nat.ltb_spec i size); [|lia].
  apply repeat_tile_nth. destruct b; [congruence|]. simpl. nia.
Qed.

(** A slice that follows the tiling on all its bytes is the tiling. *)
Lemma tiled_upto_all (b out : bytes) :
  b <> [] -> tiled_upto b out (length out) -> out = tiled b (length out).
Proof.
  intros Hb Hout. apply nth_error_ext. intros i.
  destruct (Nat.lt_ge_cases i (length out)) as [Hlt|Hge].
  - rewrite Hout by trivial. symmetry. now apply tiled_nth.
  - transitivity (@None ascii); [|symmetry]; apply nth_error_None; trivial.
    now rewrite tiled_length.
Qed.

Lemma tile_nonempty (num : Z) : tile num <> [].
Proof. unfold tile. destruct (AppendInt [] num); discriminate. Qed.

Lemma make_bytes_length (n : Z) : length (make_bytes n) = Z.to_nat n.
Proof. apply repeat_length. Qed.

(** [formatValue] returns, keeps the length of the slice and leaves in it
    the tiling of [tile num], whatever the slice held. *)
Lemma formatValue_tiled (num : Z) (v : bytes) :
  formatValue num v = Done (tiled (tile num) (length v)).
Proof.
  pose proof (tile_nonempty num) as Hb.
  assert (Hlb : (0 < length (tile num))%nat)
    by (destruct (tile num); simpl; [congruence | lia]).
  unfold formatValue.
  pose proof (copy_count v (tile num)) as Hc.
  pose proof (copy_result v (tile num)) as Hr.
  pose proof (copy_length v (tile num)) as Hl.
  destruct (copy v (tile num)) as [n v1]. simpl in Hc, Hr, Hl.
  destruct (fill_loop_tiles (tile num) Hb (length v) n v1)
    as (out & Hout & Hlo & Hto).
  - lia.
  - lia.
  - destruct (Nat.min_spec (length v) (length (tile num))) as [[? Hm]|[? Hm]];
      rewrite Hm in Hc; subst n.
    + left. lia.
    + right. apply Nat.Div0.mod_same.
  - intros i Hi. subst v1.
    rewrite nth_error_app1 by (rewrite length_firstn; lia).
    rewrite nth_error_firstn. destruct (Nat.ltb_spec i (length v)); [|lia].
    rewrite Nat.mod_small by lia. trivial.
  - rewrite Hout. f_equal. rewrite <- Hlo in Hto.
    rewrite (tiled_upto_all _ _ Hb Hto). congruence.
Qed.

(** *** Decimal text *)

Lemma digit_value_digit (d : Z) :
  0 <= d <= 9 -> digit_value (digit d) = d /\ is_digit (digit d) = true.
Proof.
  intros Hd. unfold digit_value, is_digit, digit.
  rewrite N_ascii_embedding by lia.
  split; [lia|].
  apply andb_true_intro; split; apply N.leb_le; lia.
Qed.

Lemma decimal_value_snoc (ds : bytes) (c : ascii) :
  decimal_value (ds ++ [c]) = 10 * decimal_value ds + digit_value c.
Proof. unfold decimal_value. now rewrite fold_left_app. Qed.

Lemma formatBits_acc (fuel : nat) :
  forall u acc, formatBits fuel u acc = formatBits fuel u [] ++ acc.
Proof.
  induction fuel as [|fuel IH]; intros u acc; simpl; trivial.
  destruct (u <? 10); trivial.
  rewrite (IH _ (_ :: acc)), (IH _ [_]), <- app_assoc. trivial.
Qed.

Lemma formatBits_decimal (fuel : nat) :
  forall u, 0 <= u < 10 ^ (Z.of_nat fuel + 1) ->
            decimal_text (formatBits fuel u []) u.
Proof.
  assert (Hone : forall d, 0 <= d <= 9 -> decimal_text [digit d] d).
  { intros d Hd. destruct (digit_value_digit d Hd) as [Hv Hi].
    split; [discriminate|]. split; [repeat constructor; trivial|].
    split; [unfold decimal_value; cbn [fold_left]; lia |].
    cbn [hd_error]. congruence. }
  induction fuel as [|fuel IH]; intros u Hu; simpl.
  - change (10 ^ (Z.of_nat 0 + 1)) with 10 in Hu.
    rewrite Z.mod_small by lia. apply Hone. lia.
  - destruct (Z.ltb_spec u 10) as [Hlt|Hge]; [apply Hone; lia|].
    rewrite formatBits_acc.
    assert (Hq : 0 <= u / 10 < 10 ^ (Z.of_nat fuel + 1)).
    { replace (Z.of_nat (S fuel) + 1) with (Z.succ (Z.of_nat fuel + 1)) in Hu
        by lia.
      rewrite Z.pow_succ_r in Hu by lia.
      split; [apply Z.div_pos; lia | apply Z.div_lt_upper_bound; lia]. }
    destruct (IH _ Hq) as (Hne & Hall & Hval & Hlead).
    assert (Hm : 0 <= u mod 10 <= 9) by (pose proof (Z.mod_pos_bound u 10); lia).
    destruct (digit_value_digit _ Hm) as [Hv Hi].
    repeat split.
    + destruct (formatBits fuel (u / 10) []); discriminate.
    + apply Forall_app; split; auto.
    + rewrite decimal_value_snoc, Hval, Hv.
      pose proof (Z.div_mod u 10). lia.
    + intros Hhd. exfalso.
      destruct (formatBits fuel (u / 10) []) as [|c ds] eqn:E; [congruence|].
      simpl in Hhd. specialize (Hlead Hhd). rewrite Hlead in Hval.
      unfold decimal_value in Hval. simpl in Hval.
      assert (1 <= u / 10) by (apply Z.div_le_lower_bound; lia).
      unfold digit_value in Hval. simpl in Hval. lia.
Qed.

(** For a non-negative [int64], [AppendInt] writes its decimal text. *)
Lemma AppendInt_decimal (num : Z) :
  0 <= num <= Int64.max_int -> decimal_text (AppendInt [] num) num.
Proof.
  intros Hn. unfold AppendInt.
  destruct (Z.ltb_spec num 0); [lia|]. cbn [app].
  unfold Int64.max_int, Int64.half in Hn.
  unfold Int64.to_uint64, Int64.modulus.
  rewrite Z.mod_small by lia.
  apply formatBits_decimal. change (10 ^ (Z.of_nat 19 + 1)) with (10 ^ 20). lia.
Qed.

Lemma tiled_prefix (b : bytes) (size : nat) :
  b <> [] -> (length b <= size)%nat -> firstn (length b) (tiled b size) = b.
Proof.
  intros Hb Hle. apply nth_error_ext. intros i.
  rewrite nth_error_firstn.
  destruct (Nat.ltb_spec i (length b)) as [Hlt|Hge].
  - rewrite (tiled_nth b size Hb i) by lia. now rewrite Nat.mod_small.
  - symmetry. now apply nth_error_None.
Qed.

(** From any state of the loop with [n <= len(v)], the loop returns
    within [len(v) - n] rounds, without a slice out of range. *)
Lemma fill_loop_returns (b : bytes) :
  b <> [] ->
  forall fuel n v,
    (n <= length v)%nat ->
    (length v - n <= fuel)%nat ->
    exists out, fill_loop fuel b n v = Done out /\ length out = length v.
Proof.
  intros Hb. induction fuel as [|fuel IH]; intros n v Hn Hfuel; simpl.
  - replace n with (length v) by lia. rewrite Nat.eqb_refl. eauto.
  - destruct (Nat.eqb_spec n (length v)) as [->|Hne]; [eauto|].
    unfold slice_from. destruct (Nat.leb_spec n (length v)); [|lia].
    assert (Hs : skipn n v <> []).
    { intros E. apply (f_equal (@length ascii)) in E.
      rewrite length_skipn in E. simpl in E. lia. }
    pose proof (copy_progress _ _ Hs Hb) as Hp.
    pose proof (copy_count (skipn n v) b) as Hc.
    pose proof (copy_length (skipn n v) b) as Hl.
    destruct (copy (skipn n v) b) as [c tl']. simpl in Hp, Hc, Hl.
    rewrite length_skipn in Hc, Hl.
    assert (Hlen : length (write_from v n tl') = length v).
    { unfold write_from. rewrite length_app, length_firstn. lia. }
    destruct (IH (n + c)%nat (write_from v n tl')) as (out & Hout & Hlo);
      [lia | lia |].
    exists out. split; [trivial | congruence].
Qed.

(** C3: for every sequence number [seq >= 0] and every [size > 0], the
    formatter leaves in a slice of [size] bytes a value of length exactly
    [size]. *)
Theorem formatValue_length (seq size : Z) (v : bytes) :
  0 <= seq -> 0 < size -> Z.of_nat (length v) = size ->
  exists out, formatValue seq v = Done out /\ Z.of_nat (length out) = size.
Proof.
  intros _ _ Hv. eexists. split; [apply formatValue_tiled|].
  now rewrite tiled_length by apply tile_nonempty.
Qed.

Lemma formatValue_length_witness :
  exists out, formatValue 42 (make_bytes 10) = Done out /\
              Z.of_nat (length out) = 10.
Proof.
  apply (formatValue_length 42 10 (make_bytes 10)); [lia | lia | reflexivity].
Defined.

(** C4: for [seq >= 0] and [size > 0] the formatted record is the tile,
    the decimal digits of [seq] followed by one space, repeated and cut to
    [size] bytes; when [size] is at least the length of the tile, the
    record starts with the digits of [seq] and a space. *)
Theorem formatValue_tiling (seq size : Z) (v : bytes) :
  Int64.in_range seq -> 0 <= seq -> 0 < size -> Z.of_nat (length v) = size ->
  exists digits out,
    decimal_text digits seq /\
    tile seq = digits ++ [" "%char] /\
    formatValue seq v = Done out /\
    out = tiled (digits ++ [" "%char]) (Z.to_nat size) /\
    (Z.of_nat (length (digits ++ [" "%char])) <= size ->
     firstn (length (digits ++ [" "%char])) out = digits ++ [" "%char]).
Proof.
  intros [_ Hmax] Hseq Hsize Hv.
  exists (AppendInt [] seq), (tiled (tile seq) (length v)).
  assert (Hn : Z.to_nat size = length v) by lia.
  split; [apply AppendInt_decimal; lia|].
  split; [reflexivity|].
  split; [apply formatValue_tiled|].
  fold (tile seq). rewrite Hn. split; [reflexivity|].
  intros Hle. apply tiled_prefix; [apply tile_nonempty | lia].
Qed.

Lemma formatValue_tiling_witness :
  exists digits out,
    decimal_text digits 123 /\
    tile 123 = digits ++ [" "%char] /\
    formatValue 123 (make_bytes 10) = Done out /\
    out = tiled (digits ++ [" "%char]) (Z.to_nat 10) /\
    (Z.of_nat (length (digits ++ [" "%char])) <= 10 ->
     firstn (length (digits ++ [" "%char])) out = digits ++ [" "%char]).
Proof.
  apply (formatValue_tiling 123 10 (make_bytes 10)).
  - unfold Int64.in_range, Int64.min_int, Int64.max_int, Int64.half. lia.
  - lia.
  - lia.
  - reflexivity.
Defined.

(** C10: the formatter returns for every input, negative numbers and the
    empty slice included: the tile is never empty, so every copy into a
    non-empty rest moves at least one byte, the loop returns from any
    position [n <= len(v)] within [len(v) - n] rounds, and no slice
    expression is out of range. *)
Theorem formatValue_total (num : Z) (v : bytes) :
  tile num <> [] /\
  (forall rest, rest <> [] -> (0 < fst (copy rest (tile num)))%nat) /\
  (forall fuel n w,
      (n <= length w)%nat -> (length w - n <= fuel)%nat ->
      exists out, fill_loop fuel (tile num) n w = Done out /\
                  length out = length w) /\
  exists out, formatValue num v = Done out /\ length out = length v.
Proof.
  pose proof (tile_nonempty num) as Hb.
  split; [trivial|].
  split; [intros rest Hr; now apply copy_progress|].
  split; [now apply fill_loop_returns|].
  eexists. split; [apply formatValue_tiled | now apply tiled_length].
Qed.

(** ** The process: callbacks and [main] *)


(** *** The monad *)

Lemma bind_val {A B} (c : M A) (k : A -> M B) (w w' : World) (a : A) :
  c w = (Val a, w') -> bind c k w = k a w'.
Proof. unfold bind. now intros ->. Qed.

Lemma bind_exited {A B} (c : M A) (k : A -> M B) (w w' : World) :
  c w = (Exited, w') -> bind c k w = (Exited, w').
Proof. unfold bind. now intros ->. Qed.

Lemma set_goroutines_same (w : World) : set_goroutines w (goroutines w) = w.
Proof. now destruct w. Qed.

Lemma start_workers_eq (n : nat) (opts : list Opt) :
  forall w, start_workers n opts w =
            (Val tt, set_goroutines w (goroutines w ++ repeat (GoWorker opts) n)).
Proof.
  induction n as [|n IH]; intros w; cbn [start_workers repeat].
  - unfold ret. now rewrite app_nil_r, set_goroutines_same.
  - erewrite bind_val by reflexivity. rewrite IH. f_equal.
    unfold set_goroutines. cbn. now rewrite <- app_assoc.
Qed.

(** *** The two switches *)

Section Switches.

Variable unicode_lower : string -> string.
Variable cfg : Config.

Lemma logLevel_switch_accepts (opts : list Opt) (w : World) :
  In (ToLower unicode_lower (logLevel cfg)) logLevel_names ->
  exists extra,
    logLevel_switch unicode_lower cfg opts w = (Val (opts ++ extra), w) /\
    Forall (fun o => forall n, o <> MaxBufferedRecords n) extra.
Proof.
  unfold logLevel_switch, logLevel_names.
  intros [<- | [<- | [<- | [<- | [<- | []]]]]]; cbn.
  - exists []. unfold ret. rewrite app_nil_r. now split.
  - eexists. split; [reflexivity | repeat constructor; discriminate].
  - eexists. split; [reflexivity | repeat constructor; discriminate].
  - eexists. split; [reflexivity | repeat constructor; discriminate].
  - eexists. split; [reflexivity | repeat constructor; discriminate].
Qed.

Lemma logLevel_switch_rejects (opts : list Opt) (w : World) :
  ~ In (ToLower unicode_lower (logLevel cfg)) logLevel_names ->
  logLevel_switch unicode_lower cfg opts w =
  (Exited,
   exited w ("unrecognized log level " ++ logLevel cfg ++ newline)%string 1).
Proof.
  unfold logLevel_switch, logLevel_names. intros Hn.
  repeat match goal with
         | |- context [String.eqb ?a ?b] =>
             destruct (String.eqb_spec a b) as [E|_];
             [exfalso; apply Hn; rewrite E; simpl; tauto|]
         end.
  reflexivity.
Qed.

Lemma compression_switch_accepts (opts : list Opt) (w : World) :
  In (ToLower unicode_lower (compression cfg)) compression_names ->
  exists c,
    compression_switch unicode_lower cfg opts w =
    (Val (opts ++ [BatchCompression c]), w).
Proof.
  unfold compression_switch, compression_names.
  intros [<- | [<- | [<- | [<- | [<- | []]]]]]; cbn; eexists; reflexivity.
Qed.

Lemma compression_switch_rejects (opts : list Opt) (w : World) :
  ~ In (ToLower unicode_lower (compression cfg)) compression_names ->
  compression_switch unicode_lower cfg opts w =
  (Exited,
   exited w ("unrecognized compression " ++ compression cfg ++ newline)%string 1).
Proof.
  unfold compression_switch, compression_names. intros Hn.
  repeat match goal with
         | |- context [String.eqb ?a ?b] =>
             destruct (String.eqb_spec a b) as [E|_];
             [exfalso; apply Hn; rewrite E; simpl; tauto|]
         end.
  reflexivity.
Qed.

End Switches.

(** *** [main] *)

Section MainOutcome.

Variable unicode_lower : string -> string.
Variable cfg : Config.

Let lower := ToLower unicode_lower.

(** The options that [main] lists first, before the switches. *)
Let first_opts : list Opt :=
  [ SeedBrokers (Split (brokers cfg));
    DefaultProduceTopic (topic cfg);
    MaxBufferedRecords (Z.shiftl 50 20 / recordSize cfg + 1);
    BatchMaxBytes (Int32.wrap (maxBatchSize cfg));
    RequiredAcks_AllISRAcks ].

Lemma max_buffered_exact :
  0 < recordSize cfg ->
  Int64.quo (Z.shiftl 50 20) (recordSize cfg)
  = Some (Z.shiftl 50 20 / recordSize cfg) /\
  Int64.add (Z.shiftl 50 20 / recordSize cfg) 1
  = Z.shiftl 50 20 / recordSize cfg + 1.
Proof.
  intros Hrs. change (Z.shiftl 50 20) with 52428800.
  assert (Hq : 0 <= 52428800 / recordSize cfg <= 52428800).
  { split; [apply Z.div_pos; lia|].
    apply Z.div_le_upper_bound; [lia | nia]. }
  unfold Int64.quo, Int64.add.
  destruct (Z.eqb_spec (recordSize cfg) 0); [lia|].
  rewrite Z.quot_div_nonneg by lia.
  rewrite !Int64Facts.wrap_small
    by (unfold Int64.in_range, Int64.min_int, Int64.max_int, Int64.half; lia).
  now split.
Qed.

(** What [main] does, by the first check that fails. *)
Lemma main_outcome (w : World) :
  (recordSize cfg <= 0 /\
   main unicode_lower cfg w =
   (Exited,
    exited w ("record bytes must be larger than zero" ++ newline)%string 1))
  \/
  (0 < recordSize cfg /\
   ~ In (lower (logLevel cfg)) logLevel_names /\
   main unicode_lower cfg w =
   (Exited,
    exited w ("unrecognized log level " ++ logLevel cfg ++ newline)%string 1))
  \/
  (0 < recordSize cfg /\
   In (lower (logLevel cfg)) logLevel_names /\
   ~ In (lower (compression cfg)) compression_names /\
   main unicode_lower cfg w =
   (Exited,
    exited w
      ("unrecognized compression " ++ compression cfg ++ newline)%string 1))
  \/
  (0 < recordSize cfg /\
   In (lower (logLevel cfg)) logLevel_names /\
   In (lower (compression cfg)) compression_names /\
   clients cfg <= 0 /\
   main unicode_lower cfg w =
   (Exited,
    exited w ("number of clients must be positive" ++ newline)%string 1))
  \/
  (valid_config unicode_lower cfg /\
   exists rest,
     Forall (fun o => forall n, o <> MaxBufferedRecords n) rest /\
     main unicode_lower cfg w =
     (Running,
      set_goroutines w
        (goroutines w ++
         GoPrintRate ::
         repeat (GoWorker (first_opts ++ rest)) (Z.to_nat (clients cfg))))).
Proof.
  unfold main.
  destruct (Z.leb_spec (recordSize cfg) 0) as [Hrs|Hrs].
  { left. split; [trivial | reflexivity]. }
  right.
  erewrite bind_val by reflexivity.
  destruct (max_buffered_exact Hrs) as [Hq Hadd].
  unfold int_quo. rewrite Hq.
  erewrite bind_val by reflexivity. rewrite Hadd.
  fold first_opts.
  destruct (in_dec string_dec (lower (logLevel cfg)) logLevel_names)
    as [Hl|Hl].
  2:{ left. repeat split; trivial.
      erewrite bind_exited; [reflexivity|].
      now apply logLevel_switch_rejects. }
  right.
  destruct (logLevel_switch_accepts unicode_lower cfg first_opts w Hl)
    as [extra [El Hextra]].
  erewrite bind_val by exact El.
  set (opts1 := if linger cfg =? 0 then first_opts ++ extra
                else (first_opts ++ extra) ++ [Linger (linger cfg)]).
  destruct (in_dec string_dec (lower (compression cfg)) compression_names)
    as [Hc|Hc].
  2:{ left. repeat split; trivial.
      erewrite bind_exited; [reflexivity|].
      now apply compression_switch_rejects. }
  right.
  destruct (compression_switch_accepts unicode_lower cfg opts1 w Hc)
    as [c Ec].
  erewrite bind_val by exact Ec.
  destruct (Z.leb_spec (clients cfg) 0) as [Hn|Hn].
  { left. repeat split; trivial. }
  right. split; [now repeat split|].
  erewrite bind_val by reflexivity.
  erewrite bind_val by reflexivity.
  erewrite bind_val by apply start_workers_eq.
  exists (if linger cfg =? 0 then extra ++ [BatchCompression c]
          else extra ++ [Linger (linger cfg); BatchCompression c]).
  split.
  - destruct (linger cfg =? 0); apply Forall_app; split; trivial;
      repeat constructor; discriminate.
  - unfold block_forever. f_equal. unfold set_goroutines. cbn.
    rewrite <- app_assoc. cbn.
    subst opts1. destruct (linger cfg =? 0); rewrite <- ?app_assoc; reflexivity.
Qed.

End MainOutcome.




(** C5: called with no error, the callback adds 1 to the record counter
    and the record size to the byte counter, and nothing else; called with
    an error, it writes [produce error: ] and the error's text to standard
    error, the process exits with status 1, and neither counter has
    changed. *)
Theorem callback_contract (cfg : Config) (w : World) (e : string) :
  (exists w',
     produce_callback cfg None w = (Val tt, w') /\
     rateRecs w' = Int64.add (rateRecs w) 1 /\
     rateBytes w' = Int64.add (rateBytes w) (recordSize cfg) /\
     stderr w' = stderr w /\ exitCode w' = exitCode w /\
     reports w' = reports w /\ goroutines w' = goroutines w /\
     submitted w' = submitted w) /\
  (exists w',
     produce_callback cfg (Some e) w = (Exited, w') /\
     stderr w' = (stderr w ++ "produce error: " ++ e ++ newline)%string /\
     exitCode w' = Some 1 /\
     rateRecs w' = rateRecs w /\ rateBytes w' = rateBytes w /\
     forall (A : Type) (c : M A), run c w' = w').
Proof.
  split.
  - eexists. split; [reflexivity|].
    cbn [rateRecs rateBytes stderr exitCode reports goroutines submitted
         store snd load].
    repeat split. apply Int64Facts.add_wrap_r.
  - eexists. split; [reflexivity|]. repeat split.
Qed.

(** C8: for a record size above zero, the client that [main] configures
    gets as its maximum of buffered records [50*2^20 / recordSize + 1], the
    integer division being exact; that many records amount to more than
    50 MiB and to at most 50 MiB and one record. *)
Theorem max_buffered_records (unicode_lower : string -> string)
    (cfg : Config) (w w' : World) :
  0 < recordSize cfg ->
  main unicode_lower cfg w = (Running, w') ->
  let n := 50 * 2 ^ 20 / recordSize cfg + 1 in
  (exists opts,
     goroutines w' =
       goroutines w ++
       GoPrintRate :: repeat (GoWorker opts) (Z.to_nat (clients cfg)) /\
     In (MaxBufferedRecords n) opts /\
     (forall m, In (MaxBufferedRecords m) opts -> m = n)) /\
  50 * 2 ^ 20 < n * recordSize cfg <= 50 * 2 ^ 20 + recordSize cfg.
Proof.
  intros Hrs Hmain n.
  split.
  - destruct (main_outcome unicode_lower cfg w)
      as [(_ & E) | [(_ & _ & E) | [(_ & _ & _ & E) |
          [(_ & _ & _ & _ & E) | (_ & rest & Hrest & E)]]]];
      rewrite E in Hmain; try discriminate Hmain.
    injection Hmain as <-. eexists. split; [reflexivity|].
    change (Z.shiftl 50 20) with (50 * 2 ^ 20). fold n.
    split.
    + simpl. tauto.
    + intros m Hm. cbn [In app] in Hm.
      destruct Hm as [Hm|[Hm|[Hm|[Hm|[Hm|Hm]]]]]; try discriminate Hm.
      * injection Hm as <-. reflexivity.
      * rewrite Forall_forall in Hrest. now destruct (Hrest _ Hm m).
  - subst n.
    pose proof (Z.div_mod (50 * 2 ^ 20) (recordSize cfg) ltac:(lia)) as Hd.
    pose proof (Z.mod_pos_bound (50 * 2 ^ 20) (recordSize cfg) Hrs) as Hm.
    rewrite Z.mul_add_distr_r, Z.mul_1_l.
    rewrite (Z.mul_comm (50 * 2 ^ 20 / recordSize cfg)). lia.
Qed.

Lemma max_buffered_records_witness :
  let w' := snd (main ascii_only default_flags initial_world) in
  let n := 50 * 2 ^ 20 / recordSize default_flags + 1 in
  (exists opts,
     goroutines w' =
       goroutines initial_world ++
       GoPrintRate :: repeat (GoWorker opts) (Z.to_nat (clients default_flags)) /\
     In (MaxBufferedRecords n) opts /\
     (forall m, In (MaxBufferedRecords m) opts -> m = n)) /\
  50 * 2 ^ 20 < n * recordSize default_flags
  <= 50 * 2 ^ 20 + recordSize default_flags.
Proof.
  intros w'.
  apply (max_buffered_records ascii_only default_flags initial_world w').
  - simpl. lia.
  - vm_compute. reflexivity.
Defined.

(** *** Case of the flag values *)

Lemma bind_ext {A B} (c : M A) (k1 k2 : A -> M B) (w : World) :
  (forall a w', k1 a w' = k2 a w') -> bind c k1 w = bind c k2 w.
Proof. intros H. unfold bind. destruct (c w) as [[a| |] w']; auto. Qed.

Section CaseInsensitive.

Variable unicode_lower : string -> string.

Let lower := ToLower unicode_lower.

Lemma lower_compression_fixed (s : string) :
  In (lower s) compression_names -> lower (lower s) = lower s.
Proof.
  unfold compression_names.
  intros [<- | [<- | [<- | [<- | [<- | []]]]]]; reflexivity.
Qed.

Lemma lower_logLevel_fixed (s : string) :
  In (lower s) logLevel_names -> lower (lower s) = lower s.
Proof.
  unfold logLevel_names.
  intros [<- | [<- | [<- | [<- | [<- | []]]]]]; reflexivity.
Qed.

Lemma compression_switch_lower (cfg : Config) (s : string) opts w :
  In (lower s) compression_names ->
  compression_switch unicode_lower (with_compression cfg s) opts w =
  compression_switch unicode_lower (with_compression cfg (lower s)) opts w.
Proof.
  intros H. unfold compression_switch. cbn [compression with_compression].
  fold lower. rewrite (lower_compression_fixed s H).
  revert H. unfold compression_names.
  intros [<- | [<- | [<- | [<- | [<- | []]]]]];
    cbn [String.eqb Ascii.eqb Bool.eqb]; reflexivity.
Qed.

Lemma logLevel_switch_lower (cfg : Config) (s : string) opts w :
  In (lower s) logLevel_names ->
  logLevel_switch unicode_lower (with_logLevel cfg s) opts w =
  logLevel_switch unicode_lower (with_logLevel cfg (lower s)) opts w.
Proof.
  intros H. unfold logLevel_switch. cbn [logLevel with_logLevel].
  fold lower. rewrite (lower_logLevel_fixed s H).
  revert H. unfold logLevel_names.
  intros [<- | [<- | [<- | [<- | [<- | []]]]]];
    cbn [String.eqb Ascii.eqb Bool.eqb]; reflexivity.
Qed.

Lemma main_compression_lower (cfg : Config) (s : string) (w : World) :
  In (lower s) compression_names ->
  main unicode_lower (with_compression cfg s) w =
  main unicode_lower (with_compression cfg (lower s)) w.
Proof.
  intros H. unfold main.
  apply bind_ext; intros _ w1.
  apply bind_ext; intros q w2.
  unfold logLevel_switch at 1 2. cbn [logLevel with_compression].
  apply bind_ext; intros opts w3. cbn [linger with_compression].
  unfold bind at 1 3. rewrite (compression_switch_lower cfg s _ w3 H).
  reflexivity.
Qed.

Lemma main_logLevel_lower (cfg : Config) (s : string) (w : World) :
  In (lower s) logLevel_names ->
  main unicode_lower (with_logLevel cfg s) w =
  main unicode_lower (with_logLevel cfg (lower s)) w.
Proof.
  intros H. unfold main.
  apply bind_ext; intros _ w1.
  apply bind_ext; intros q w2.
  unfold bind at 1 5. rewrite (logLevel_switch_lower cfg s _ w2 H).
  reflexivity.
Qed.

End CaseInsensitive.

(** C9: the compression and the log level are matched without regard to
    case: a value whose lower-case form is recognised is accepted, and
    [main] does with it exactly what it does with that lower-case form;
    [GZIP] and [Debug] are such values. *)
Theorem flags_case_insensitive (unicode_lower : string -> string)
    (cfg : Config) (s : string) (w : World) :
  (In (ToLower unicode_lower s) compression_names ->
   main unicode_lower (with_compression cfg s) w =
   main unicode_lower (with_compression cfg (ToLower unicode_lower s)) w /\
   forall opts, exists c,
     compression_switch unicode_lower (with_compression cfg s) opts w =
     (Val (opts ++ [BatchCompression c]), w)) /\
  (In (ToLower unicode_lower s) logLevel_names ->
   main unicode_lower (with_logLevel cfg s) w =
   main unicode_lower (with_logLevel cfg (ToLower unicode_lower s)) w /\
   forall opts, exists extra,
     logLevel_switch unicode_lower (with_logLevel cfg s) opts w =
     (Val (opts ++ extra), w)) /\
  ToLower unicode_lower "GZIP" = "gzip"%string /\
  ToLower unicode_lower "Debug" = "debug"%string.
Proof.
  split; [|split; [|split; reflexivity]].
  - intros H. split; [now apply main_compression_lower|].
    intros opts. now apply compression_switch_accepts.
  - intros H. split; [now apply main_logLevel_lower|].
    intros opts.
    destruct (logLevel_switch_accepts unicode_lower (with_logLevel cfg s)
                opts w H) as (extra & E & _).
    now exists extra.
Qed.

Lemma flags_case_insensitive_witness :
  (main ascii_only (with_compression default_flags "GZIP") initial_world =
   main ascii_only
     (with_compression default_flags (ToLower ascii_only "GZIP"))
     initial_world /\
   forall opts, exists c,
     compression_switch ascii_only (with_compression default_flags "GZIP")
       opts initial_world =
     (Val (opts ++ [BatchCompression c]), initial_world)) /\
  (main ascii_only (with_logLevel default_flags "Debug") initial_world =
   main ascii_only
     (with_logLevel default_flags (ToLower ascii_only "Debug"))
     initial_world /\
   forall opts, exists extra,
     logLevel_switch ascii_only (with_logLevel default_flags "Debug")
       opts initial_world =
     (Val (opts ++ extra), initial_world)).
Proof.
  split.
  - apply (proj1 (flags_case_insensitive ascii_only default_flags "GZIP"
                    initial_world)).
    unfold compression_names. simpl. tauto.
  - apply (proj1 (proj2 (flags_case_insensitive ascii_only default_flags
                           "Debug" initial_world))).
    unfold logLevel_names. simpl. tauto.
Defined.

(** *** The producer loop *)












(** ** More on the record formatter *)

Lemma formatBits_length (fuel : nat) :
  forall u n,
    0 <= u < 10 ^ Z.of_nat n -> (1 <= n <= fuel + 1)%nat ->
    (length (formatBits fuel u []) <= n)%nat.
Proof.
  induction fuel as [|fuel IH]; intros u n Hu Hn; cbn [formatBits].
  - simpl. lia.
  - destruct (Z.ltb_spec u 10) as [Hlt|Hge]; [simpl; lia|].
    rewrite formatBits_acc, length_app. cbn [length].
    destruct n as [|[|n]]; [lia | change (10 ^ Z.of_nat 1) with 10 in Hu; lia |].
    assert (Hq : 0 <= u / 10 < 10 ^ Z.of_nat (S n)).
    { replace (Z.of_nat (S (S n))) with (Z.succ (Z.of_nat (S n))) in Hu by lia.
      rewrite Z.pow_succ_r in Hu by lia.
      split; [apply Z.div_pos; lia | apply Z.div_lt_upper_bound; lia]. }
    specialize (IH (u / 10) (S n) Hq ltac:(lia)). lia.
Qed.

(** The text that [AppendInt] writes for a negative [int64]: a minus sign
    and the decimal text of the magnitude, the least [int64] included. *)
Lemma AppendInt_negative (num : Z) :
  Int64.min_int <= num < 0 ->
  exists ds, AppendInt [] num = "-"%char :: ds /\
             decimal_text ds (- num) /\ (length ds <= 19)%nat.
Proof.
  intros Hn. unfold AppendInt.
  destruct (Z.ltb_spec num 0); [|lia]. cbn [app].
  unfold Int64.min_int, Int64.half in Hn.
  unfold Int64.to_uint64, Int64.modulus.
  rewrite Z.mod_small by lia.
  eexists. split; [reflexivity|]. split.
  - apply formatBits_decimal. change (10 ^ (Z.of_nat 19 + 1)) with (10 ^ 20). lia.
  - apply formatBits_length; [|lia]. change (10 ^ Z.of_nat 19) with (10 ^ 19). lia.
Qed.

Lemma AppendInt_length (num : Z) :
  0 <= num <= Int64.max_int -> (length (AppendInt [] num) <= 19)%nat.
Proof.
  intros Hn. unfold AppendInt.
  destruct (Z.ltb_spec num 0); [lia|]. cbn [app].
  unfold Int64.max_int, Int64.half in Hn.
  unfold Int64.to_uint64, Int64.modulus.
  rewrite Z.mod_small by lia.
  apply formatBits_length; [|lia]. change (10 ^ Z.of_nat 19) with (10 ^ 19). lia.
Qed.

(** X1: for a negative [int64], the least one included, the tile is a
    minus sign, the decimal text of the magnitude and one space. *)
Theorem tile_negative (num : Z) :
  Int64.in_range num -> num < 0 ->
  exists ds, tile num = "-"%char :: ds ++ [" "%char] /\
             decimal_text ds (- num).
Proof.
  intros [Hmin _] Hneg.
  destruct (AppendInt_negative num (conj Hmin Hneg)) as (ds & E & Hd & _).
  exists ds. unfold tile. rewrite E. now split.
Qed.

Lemma tile_negative_witness :
  exists ds, tile Int64.min_int = "-"%char :: ds ++ [" "%char] /\
             decimal_text ds (- Int64.min_int).
Proof.
  apply (tile_negative Int64.min_int).
  - unfold Int64.in_range, Int64.min_int, Int64.max_int, Int64.half. lia.
  - reflexivity.
Defined.

(** X2: the tile of a non-negative [int64] has between 2 and 20 bytes, so
    it fits the 20-byte buffer of [formatValue]; the tile of a negative
    one has between 3 and 21 bytes, and the tile of the least [int64] has
    21. *)
Theorem tile_length (num : Z) :
  Int64.in_range num ->
  (0 <= num -> (2 <= length (tile num) <= 20)%nat) /\
  (num < 0 -> (3 <= length (tile num) <= 21)%nat) /\
  length (tile Int64.min_int) = 21%nat.
Proof.
  intros [Hmin Hmax]. split; [|split; [|reflexivity]].
  - intros Hpos.
    destruct (AppendInt_decimal num (conj Hpos Hmax)) as (Hne & _).
    pose proof (AppendInt_length num (conj Hpos Hmax)) as Hlen.
    unfold tile. rewrite length_app. cbn [length].
    destruct (AppendInt [] num); [congruence | simpl in *; lia].
  - intros Hneg.
    destruct (AppendInt_negative num (conj Hmin Hneg))
      as (ds & E & (Hne & _) & Hlen).
    unfold tile. rewrite E. cbn [length app]. rewrite length_app. cbn [length].
    destruct ds; [congruence | simpl in *; lia].
Qed.

Lemma tile_length_witness :
  (0 <= 7 -> (2 <= length (tile 7) <= 20)%nat) /\
  (7 < 0 -> (3 <= length (tile 7) <= 21)%nat) /\
  length (tile Int64.min_int) = 21%nat.
Proof.
  apply (tile_length 7).
  unfold Int64.in_range, Int64.min_int, Int64.max_int, Int64.half. lia.
Defined.

Lemma In_firstn {A} (n : nat) (l : list A) (x : A) :
  In x (firstn n l) -> In x l.
Proof.
  revert l; induction n as [|n IH]; intros [|y l]; simpl; try tauto.
  intros [->|H]; [now left | right; now apply IH].
Qed.

Lemma In_tiled (b : bytes) (size : nat) (c : ascii) :
  In c (tiled b size) -> In c b.
Proof.
  unfold tiled, repeat_tile. intros H. apply In_firstn in H.
  apply in_concat in H as (t & Ht & Hc). apply repeat_spec in Ht. now subst t.
Qed.

Lemma digits_record_chars (ds : bytes) :
  Forall (fun c => is_digit c = true) ds ->
  Forall (fun c => is_record_char c = true /\ c <> " "%char) ds.
Proof.
  apply Forall_impl. intros c Hc. unfold is_record_char. rewrite Hc.
  split; [reflexivity | intros ->; discriminate Hc].
Qed.

(** The text before the space of a tile holds no space. *)
Lemma AppendInt_chars (num : Z) :
  Int64.in_range num ->
  Forall (fun c => is_record_char c = true /\ c <> " "%char)
         (AppendInt [] num).
Proof.
  intros [Hmin Hmax]. destruct (Z.lt_ge_cases num 0) as [Hneg|Hpos].
  - destruct (AppendInt_negative num (conj Hmin Hneg))
      as (ds & -> & (_ & Hd & _) & _).
    constructor; [split; [reflexivity | discriminate]|].
    now apply digits_record_chars.
  - destruct (AppendInt_decimal num (conj Hpos Hmax)) as (_ & Hd & _).
    now apply digits_record_chars.
Qed.

(** X3: after [formatValue] every byte of the slice is a digit, a minus
    sign or a space: no byte of the old contents is left, and for a
    non-negative number there is no minus sign either. *)
Theorem formatValue_chars (num : Z) (v : bytes) :
  Int64.in_range num ->
  exists out,
    formatValue num v = Done out /\
    Forall (fun c => is_record_char c = true) out /\
    (0 <= num -> Forall (fun c => is_digit c = true \/ c = " "%char) out).
Proof.
  intros Hr. eexists. split; [apply formatValue_tiled|]. split.
  - apply Forall_forall. intros c Hc. apply In_tiled in Hc.
    unfold tile in Hc. apply in_app_or in Hc as [Hc|[<-|[]]]; [|reflexivity].
    pose proof (AppendInt_chars num Hr) as Ha.
    rewrite Forall_forall in Ha. now apply Ha.
  - intros Hpos. apply Forall_forall. intros c Hc. apply In_tiled in Hc.
    unfold tile in Hc. apply in_app_or in Hc as [Hc|[<-|[]]]; [|now right].
    destruct Hr as [_ Hmax].
    destruct (AppendInt_decimal num (conj Hpos Hmax)) as (_ & Hd & _).
    rewrite Forall_forall in Hd. left. now apply Hd.
Qed.

Lemma formatValue_chars_witness :
  exists out,
    formatValue 42 (make_bytes 10) = Done out /\
    Forall (fun c => is_record_char c = true) out /\
    (0 <= 42 -> Forall (fun c => is_digit c = true \/ c = " "%char) out).
Proof.
  apply (formatValue_chars 42 (make_bytes 10)).
  unfold Int64.in_range, Int64.min_int, Int64.max_int, Int64.half. lia.
Defined.

(** X4: what [formatValue] leaves in a slice depends on the number and on
    the length of the slice only, not on what the slice held: formatting a
    slice that was formatted for another number gives what a fresh slice
    of that length gives. *)
Theorem formatValue_overwrites (num1 num2 : Z) (v v1 : bytes) :
  formatValue num1 v = Done v1 ->
  formatValue num2 v1 = formatValue num2 (make_bytes (Z.of_nat (length v))).
Proof.
  rewrite formatValue_tiled. intros E. injection E as <-.
  rewrite !formatValue_tiled, make_bytes_length, Nat2Z.id.
  now rewrite tiled_length by apply tile_nonempty.
Qed.

Lemma formatValue_overwrites_witness :
  formatValue 8 (tiled (tile 12345) 9) =
  formatValue 8 (make_bytes (Z.of_nat (length (make_bytes 9)))).
Proof.
  apply (formatValue_overwrites 12345 8 (make_bytes 9)).
  apply formatValue_tiled.
Defined.

(** X5: a slice no longer than the tile gets the first bytes of the tile:
    the number is cut, and the empty slice stays empty. *)
Theorem formatValue_short (num : Z) (v : bytes) :
  (length v <= length (tile num))%nat ->
  formatValue num v = Done (firstn (length v) (tile num)).
Proof.
  intros Hle. rewrite formatValue_tiled. f_equal.
  pose proof (tile_nonempty num) as Hb.
  apply nth_error_ext. intros i.
  rewrite nth_error_firstn.
  destruct (Nat.ltb_spec i (length v)) as [Hlt|Hge].
  - rewrite (tiled_nth _ _ Hb i Hlt). now rewrite Nat.mod_small by lia.
  - apply nth_error_None. now rewrite tiled_length.
Qed.

Lemma formatValue_short_witness :
  formatValue 1234567 (make_bytes 3) =
  Done (firstn (length (make_bytes 3)) (tile 1234567)).
Proof.
  apply (formatValue_short 1234567 (make_bytes 3)). simpl. lia.
Defined.

Lemma tile_inj (a b : Z) :
  Int64.in_range a -> Int64.in_range b -> tile a = tile b -> a = b.
Proof.
  intros [Hamin Hamax] [Hbmin Hbmax] E. unfold tile in E.
  apply app_inj_tail in E as [E _].
  destruct (Z.lt_ge_cases a 0) as [Ha|Ha], (Z.lt_ge_cases b 0) as [Hb|Hb].
  - destruct (AppendInt_negative a (conj Hamin Ha)) as (da & Ea & (_ & _ & Va & _) & _).
    destruct (AppendInt_negative b (conj Hbmin Hb)) as (db & Eb & (_ & _ & Vb & _) & _).
    rewrite Ea, Eb in E. injection E as E. subst db. lia.
  - destruct (AppendInt_negative a (conj Hamin Ha)) as (da & Ea & _).
    destruct (AppendInt_decimal b (conj Hb Hbmax)) as (_ & Db & _).
    rewrite <- E, Ea in Db. inversion Db as [|? ? Hd _]. discriminate Hd.
  - destruct (AppendInt_negative b (conj Hbmin Hb)) as (db & Eb & _).
    destruct (AppendInt_decimal a (conj Ha Hamax)) as (_ & Da & _).
    rewrite E, Eb in Da. inversion Da as [|? ? Hd _]. discriminate Hd.
  - destruct (AppendInt_decimal a (conj Ha Hamax)) as (_ & _ & Va & _).
    destruct (AppendInt_decimal b (conj Hb Hbmax)) as (_ & _ & Vb & _).
    rewrite E in Va. lia.
Qed.

(** A tile that starts another tile is that tile. *)
Lemma tile_prefix_inj (a b : Z) :
  Int64.in_range a -> Int64.in_range b ->
  tile a = firstn (length (tile a)) (tile b) -> a = b.
Proof.
  intros Ha Hb E.
  pose proof (AppendInt_chars b Hb) as Hxb.
  destruct (Nat.lt_trichotomy (length (tile a)) (length (tile b)))
    as [Hlt|[Heq|Hgt]].
  - exfalso. unfold tile in E at 3. unfold tile in Hlt at 2.
    rewrite length_app in Hlt. cbn [length] in Hlt.
    rewrite firstn_app in E.
    replace (length (tile a) - length (AppendInt [] b))%nat with O in E by lia.
    rewrite firstn_O, app_nil_r in E.
    assert (Hin : In " "%char (firstn (length (tile a)) (AppendInt [] b))).
    { rewrite <- E. unfold tile. apply in_or_app. right. now left. }
    apply In_firstn in Hin. rewrite Forall_forall in Hxb.
    now destruct (Hxb _ Hin) as [_ Hns].
  - rewrite Heq, firstn_all in E. now apply tile_inj.
  - exfalso. apply (f_equal (@length ascii)) in E.
    rewrite length_firstn in E. lia.
Qed.

(** Two numbers whose tilings of a long enough slice agree are equal. *)
Lemma tiled_tile_inj (a b : Z) (n : nat) :
  Int64.in_range a -> Int64.in_range b ->
  (length (tile a) <= n)%nat -> (length (tile b) <= n)%nat ->
  tiled (tile a) n = tiled (tile b) n -> a = b.
Proof.
  intros Ha Hb Hla Hlb E.
  pose proof (tiled_prefix _ _ (tile_nonempty a) Hla) as Pa.
  pose proof (tiled_prefix _ _ (tile_nonempty b) Hlb) as Pb.
  destruct (Nat.le_ge_cases (length (tile a)) (length (tile b))) as [Hle|Hle].
  - apply tile_prefix_inj; trivial.
    rewrite <- Pb, firstn_firstn, Nat.min_l by lia. rewrite <- E. now symmetry.
  - symmetry. apply tile_prefix_inj; trivial.
    rewrite <- Pa, firstn_firstn, Nat.min_l by lia. rewrite E. now symmetry.
Qed.

(** X6: two different [int64] numbers give different records as soon as
    the records are long enough for both tiles. *)
Theorem formatValue_distinct (a b : Z) (v : bytes) :
  Int64.in_range a -> Int64.in_range b -> a <> b ->
  (length (tile a) <= length v)%nat ->
  (length (tile b) <= length v)%nat ->
  formatValue a v <> formatValue b v.
Proof.
  intros Ha Hb Hab Hla Hlb E. rewrite !formatValue_tiled in E.
  injection E as E. now apply Hab, (tiled_tile_inj a b (length v)).
Qed.

Lemma formatValue_distinct_witness :
  formatValue 99 (make_bytes 8) <> formatValue 100 (make_bytes 8).
Proof.
  apply (formatValue_distinct 99 100 (make_bytes 8)).
  - unfold Int64.in_range, Int64.min_int, Int64.max_int, Int64.half. lia.
  - unfold Int64.in_range, Int64.min_int, Int64.max_int, Int64.half. lia.
  - discriminate.
  - simpl. lia.
  - simpl. lia.
Defined.

(** ** More on [main]: the options handed to the clients *)

Section Options.

Variable unicode_lower : string -> string.
Variable cfg : Config.

Let lower := ToLower unicode_lower.

Lemma logLevel_switch_exact (opts : list Opt) (w : World) :
  In (lower (logLevel cfg)) logLevel_names ->
  exists lg,
    logLevel_switch unicode_lower cfg opts w = (Val (opts ++ lg), w) /\
    (lg = [] /\ lower (logLevel cfg) = EmptyString \/
     exists l, lg = [WithLogger_BasicLogger_Stderr l] /\
               lower (logLevel cfg) = level_name l).
Proof.
  unfold logLevel_switch, logLevel_names. fold lower.
  intros [<- | [<- | [<- | [<- | [<- | []]]]]];
    cbn [String.eqb Ascii.eqb Bool.eqb].
  - exists []. unfold ret. rewrite app_nil_r. split; [reflexivity | now left].
  - eexists. split; [reflexivity|]. right. now exists LogLevelDebug.
  - eexists. split; [reflexivity|]. right. now exists LogLevelInfo.
  - eexists. split; [reflexivity|]. right. now exists LogLevelWarn.
  - eexists. split; [reflexivity|]. right. now exists LogLevelError.
Qed.

Lemma compression_switch_exact (opts : list Opt) (w : World) :
  In (lower (compression cfg)) compression_names ->
  exists c,
    compression_switch unicode_lower cfg opts w =
    (Val (opts ++ [BatchCompression c]), w) /\
    lower (compression cfg) = codec_name c.
Proof.
  unfold compression_switch, compression_names. fold lower.
  intros [<- | [<- | [<- | [<- | [<- | []]]]]];
    cbn [String.eqb Ascii.eqb Bool.eqb].
  - now exists NoCompression.
  - now exists GzipCompression.
  - now exists SnappyCompression.
  - now exists Lz4Compression.
  - now exists ZstdCompression.
Qed.

(** When [main] gets to start its goroutines, the option list of every
    worker is known in full. *)
Lemma main_started_opts (w w' : World) :
  main unicode_lower cfg w = (Running, w') ->
  valid_config unicode_lower cfg /\
  exists lg c,
    w' = set_goroutines w
           (goroutines w ++
            GoPrintRate ::
            repeat
              (GoWorker
                 ([ SeedBrokers (Split (brokers cfg));
                    DefaultProduceTopic (topic cfg);
                    MaxBufferedRecords (Z.shiftl 50 20 / recordSize cfg + 1);
                    BatchMaxBytes (Int32.wrap (maxBatchSize cfg));
                    RequiredAcks_AllISRAcks ] ++
                  lg ++
                  (if linger cfg =? 0 then [] else [Linger (linger cfg)]) ++
                  [BatchCompression c]))
              (Z.to_nat (clients cfg))) /\
    (lg = [] /\ lower (logLevel cfg) = EmptyString \/
     exists l, lg = [WithLogger_BasicLogger_Stderr l] /\
               lower (logLevel cfg) = level_name l) /\
    lower (compression cfg) = codec_name c.
Proof.
  intros Hmain.
  destruct (main_outcome unicode_lower cfg w)
    as [(_ & E) | [(_ & _ & E) | [(_ & _ & _ & E) |
        [(_ & _ & _ & _ & E) | (Hv & _)]]]];
    try (rewrite E in Hmain; discriminate Hmain).
  split; [exact Hv|].
  destruct Hv as (Hrs & Hl & Hc & Hn).
  revert Hmain. unfold main.
  destruct (Z.leb_spec (recordSize cfg) 0) as [?|_]; [lia|].
  erewrite bind_val by reflexivity.
  destruct (max_buffered_exact cfg Hrs) as [Hq Hadd].
  unfold int_quo. rewrite Hq.
  erewrite bind_val by reflexivity. rewrite Hadd.
  match goal with
  | |- context [logLevel_switch _ _ ?o] =>
      destruct (logLevel_switch_exact o w Hl) as (lg & El & Hlg)
  end.
  erewrite bind_val by exact El.
  match goal with
  | |- context [compression_switch _ _ ?o] =>
      destruct (compression_switch_exact o w Hc) as (c & Ec & Hcn)
  end.
  erewrite bind_val by exact Ec.
  destruct (Z.leb_spec (clients cfg) 0) as [?|_]; [lia|].
  match goal with
  | |- context [start_workers _ (?o ++ [BatchCompression c])] =>
      replace (o ++ [BatchCompression c])
        with ([ SeedBrokers (Split (brokers cfg));
                DefaultProduceTopic (topic cfg);
                MaxBufferedRecords (Z.shiftl 50 20 / recordSize cfg + 1);
                BatchMaxBytes (Int32.wrap (maxBatchSize cfg));
                RequiredAcks_AllISRAcks ] ++
              lg ++
              (if linger cfg =? 0 then [] else [Linger (linger cfg)]) ++
              [BatchCompression c])
        by (destruct (linger cfg =? 0); rewrite <- ?app_assoc; reflexivity)
  end.
  erewrite bind_val by reflexivity.
  erewrite bind_val by reflexivity.
  erewrite bind_val by apply start_workers_eq.
  unfold block_forever. intros Hmain. injection Hmain as <-.
  exists lg, c. split; [|now split].
  unfold set_goroutines. cbn [goroutines go]. f_equal.
  now rewrite <- app_assoc.
Qed.

End Options.

(** X7: when [main] starts its workers, every worker gets the same option
    list, in this order: the seed brokers, the topic, the maximum of
    buffered records, the maximum batch size, the acknowledgment mode;
    then a logger exactly when the lower-case log level is not empty, at
    the level it names; then the linger exactly when it is not zero; then
    one compression, the codec that the lower-case flag names. *)
Theorem client_options (unicode_lower : string -> string) (cfg : Config)
    (w w' : World) :
  main unicode_lower cfg w = (Running, w') ->
  exists lg c,
    goroutines w' =
      goroutines w ++
      GoPrintRate ::
      repeat
        (GoWorker
           ([ SeedBrokers (Split (brokers cfg));
              DefaultProduceTopic (topic cfg);
              MaxBufferedRecords (Z.shiftl 50 20 / recordSize cfg + 1);
              BatchMaxBytes (Int32.wrap (maxBatchSize cfg));
              RequiredAcks_AllISRAcks ] ++
            lg ++
            (if linger cfg =? 0 then [] else [Linger (linger cfg)]) ++
            [BatchCompression c]))
        (Z.to_nat (clients cfg)) /\
    (lg = [] /\ ToLower unicode_lower (logLevel cfg) = EmptyString \/
     exists l, lg = [WithLogger_BasicLogger_Stderr l] /\
               ToLower unicode_lower (logLevel cfg) = level_name l) /\
    ToLower unicode_lower (compression cfg) = codec_name c.
Proof.
  intros Hmain.
  destruct (main_started_opts unicode_lower cfg w w' Hmain)
    as (_ & lg & c & -> & Hlg & Hc).
  exists lg, c. split; [reflexivity | now split].
Qed.

Lemma client_options_witness :
  exists lg c,
    goroutines (snd (main ascii_only default_flags initial_world)) =
      goroutines initial_world ++
      GoPrintRate ::
      repeat
        (GoWorker
           ([ SeedBrokers (Split (brokers default_flags));
              DefaultProduceTopic (topic default_flags);
              MaxBufferedRecords
                (Z.shiftl 50 20 / recordSize default_flags + 1);
              BatchMaxBytes (Int32.wrap (maxBatchSize default_flags));
              RequiredAcks_AllISRAcks ] ++
            lg ++
            (if linger default_flags =? 0 then []
             else [Linger (linger default_flags)]) ++
            [BatchCompression c]))
        (Z.to_nat (clients default_flags)) /\
    (lg = [] /\ ToLower ascii_only (logLevel default_flags) = EmptyString \/
     exists l, lg = [WithLogger_BasicLogger_Stderr l] /\
               ToLower ascii_only (logLevel default_flags) = level_name l) /\
    ToLower ascii_only (compression default_flags) = codec_name c.
Proof.
  apply (client_options ascii_only default_flags initial_world).
  vm_compute. reflexivity.
Defined.

(** Where an option of a started worker comes from. *)
Lemma started_option_cases (unicode_lower : string -> string) (cfg : Config)
    (w w' : World) :
  main unicode_lower cfg w = (Running, w') ->
  exists opts,
    goroutines w' =
      goroutines w ++
      GoPrintRate :: repeat (GoWorker opts) (Z.to_nat (clients cfg)) /\
    forall o, In o opts ->
      o = SeedBrokers (Split (brokers cfg)) \/
      o = DefaultProduceTopic (topic cfg) \/
      o = MaxBufferedRecords (Z.shiftl 50 20 / recordSize cfg + 1) \/
      o = BatchMaxBytes (Int32.wrap (maxBatchSize cfg)) \/
      o = RequiredAcks_AllISRAcks \/
      (exists l, o = WithLogger_BasicLogger_Stderr l) \/
      o = Linger (linger cfg) \/
      (exists c, o = BatchCompression c).
Proof.
  intros Hmain.
  destruct (main_started_opts unicode_lower cfg w w' Hmain)
    as (_ & lg & c & -> & Hlg & _).
  eexists. split; [reflexivity|].
  intros o Ho. cbn [app In] in Ho.
  destruct Ho as [<-|[<-|[<-|[<-|[<-|Ho]]]]]; auto 10.
  apply in_app_or in Ho as [Ho|Ho].
  - destruct Hlg as [[-> _]|(l & -> & _)]; [contradiction|].
    destruct Ho as [<-|[]]. eauto 10.
  - apply in_app_or in Ho as [Ho|[<-|[]]]; [|eauto 10].
    destruct (linger cfg =? 0); [contradiction|].
    destruct Ho as [<-|[]]. auto 10.
Qed.

(** X8: the maximum batch size reaches the clients as an [int32]: the
    flag's value when that is between [-2^31] and [2^31 - 1], and
    otherwise another number, its low 32 bits read as a signed number. *)
Theorem batch_max_bytes_int32 (unicode_lower : string -> string)
    (cfg : Config) (w w' : World) :
  main unicode_lower cfg w = (Running, w') ->
  exists opts,
    goroutines w' =
      goroutines w ++
      GoPrintRate :: repeat (GoWorker opts) (Z.to_nat (clients cfg)) /\
    In (BatchMaxBytes (Int32.wrap (maxBatchSize cfg))) opts /\
    forall n, In (BatchMaxBytes n) opts ->
      - 2 ^ 31 <= n < 2 ^ 31 /\
      (n - maxBatchSize cfg) mod 2 ^ 32 = 0 /\
      (n = maxBatchSize cfg <-> - 2 ^ 31 <= maxBatchSize cfg < 2 ^ 31).
Proof.
  intros Hmain.
  destruct (main_started_opts unicode_lower cfg w w' Hmain)
    as (_ & lg & c & E & _).
  destruct (started_option_cases unicode_lower cfg w w' Hmain)
    as (opts & Hg & Hcases).
  exists opts. split; [exact Hg|]. split.
  - rewrite E in Hg. cbn [goroutines set_goroutines] in Hg.
    apply app_inv_head in Hg. injection Hg as Hg.
    destruct (Z.to_nat (clients cfg)) eqn:En.
    + destruct (main_started_opts unicode_lower cfg w w' Hmain)
        as ((_ & _ & _ & Hn) & _). lia.
    + cbn [repeat] in Hg. injection Hg as <- _. cbn. tauto.
  - intros n Hn.
    assert (Hw : n = Int32.wrap (maxBatchSize cfg)).
    { destruct (Hcases _ Hn)
        as [H|[H|[H|[H|[H|[(l & H)|[H|(c' & H)]]]]]]];
        try discriminate H. now injection H. }
    subst n. unfold Int32.wrap, Int32.modulus, Int32.half.
    pose proof (Z.mod_pos_bound (maxBatchSize cfg + 2 ^ 31) (2 ^ 32)
                  ltac:(lia)) as Hb.
    pose proof (Z.div_mod (maxBatchSize cfg + 2 ^ 31) (2 ^ 32) ltac:(lia))
      as Hd.
    split; [lia|]. split.
    + replace ((maxBatchSize cfg + 2 ^ 31) mod 2 ^ 32 - 2 ^ 31
               - maxBatchSize cfg)
        with (- ((maxBatchSize cfg + 2 ^ 31) / 2 ^ 32) * 2 ^ 32) by lia.
      apply Z.mod_mul. lia.
    + split; [intros H; lia|].
      intros Hr. rewrite Z.mod_small by lia. lia.
Qed.

Lemma batch_max_bytes_int32_witness :
  exists opts,
    goroutines (snd (main ascii_only wide_batch_flags initial_world)) =
      goroutines initial_world ++
      GoPrintRate ::
      repeat (GoWorker opts) (Z.to_nat (clients wide_batch_flags)) /\
    In (BatchMaxBytes (Int32.wrap (maxBatchSize wide_batch_flags))) opts /\
    forall n, In (BatchMaxBytes n) opts ->
      - 2 ^ 31 <= n < 2 ^ 31 /\
      (n - maxBatchSize wide_batch_flags) mod 2 ^ 32 = 0 /\
      (n = maxBatchSize wide_batch_flags <->
       - 2 ^ 31 <= maxBatchSize wide_batch_flags < 2 ^ 31).
Proof.
  apply (batch_max_bytes_int32 ascii_only wide_batch_flags initial_world).
  vm_compute. reflexivity.
Defined.

(** ** The seed brokers *)

Lemma Split_nonempty (s : string) : Split s <> [].
Proof.
  destruct s as [|c r]; cbn [Split]; [discriminate|].
  destruct (Ascii.eqb c ","%char); [discriminate|].
  destruct (Split r); discriminate.
Qed.

Lemma concat_cons_char (c : ascii) (h : string) (t : list string) :
  String.concat "," (String c h :: t) = String c (String.concat "," (h :: t)).
Proof. destruct t; reflexivity. Qed.

Lemma Split_concat (s : string) : String.concat "," (Split s) = s.
Proof.
  induction s as [|c r IH]; [reflexivity|]. cbn [Split].
  destruct (Ascii.eqb_spec c ","%char) as [->|_].
  - destruct (Split r) as [|h t] eqn:E; [now apply Split_nonempty in E|].
    cbn [String.concat]. cbn [String.concat] in IH. now rewrite IH.
  - destruct (Split r) as [|h t] eqn:E; [now apply Split_nonempty in E|].
    now rewrite concat_cons_char, IH.
Qed.

Lemma Split_no_comma (s : string) :
  Forall (fun p => no_comma p = true) (Split s).
Proof.
  induction s as [|c r IH]; [repeat constructor|]. cbn [Split].
  destruct (Ascii.eqb c ","%char) eqn:Ec.
  - constructor; [reflexivity | exact IH].
  - destruct (Split r) as [|h t] eqn:E; [now apply Split_nonempty in E|].
    inversion IH as [|? ? Hh Ht]; subst.
    constructor; [|exact Ht].
    unfold no_comma in *. cbn [string_existsb].
    rewrite Ascii.eqb_sym, Ec. exact Hh.
Qed.

(** X9: the seed brokers of the clients are the pieces of the brokers
    flag between its commas: there is at least one piece (one empty
    address for the empty flag), no piece holds a comma, and the pieces
    joined by commas are the flag again. *)
Theorem seed_brokers_split (unicode_lower : string -> string)
    (cfg : Config) (w w' : World) :
  main unicode_lower cfg w = (Running, w') ->
  exists opts,
    goroutines w' =
      goroutines w ++
      GoPrintRate :: repeat (GoWorker opts) (Z.to_nat (clients cfg)) /\
    In (SeedBrokers (Split (brokers cfg))) opts /\
    forall addrs, In (SeedBrokers addrs) opts ->
      addrs <> [] /\
      Forall (fun a => no_comma a = true) addrs /\
      String.concat "," addrs = brokers cfg /\
      (brokers cfg = EmptyString -> addrs = [EmptyString]).
Proof.
  intros Hmain.
  destruct (main_started_opts unicode_lower cfg w w' Hmain)
    as ((_ & _ & _ & Hn) & lg & c & E & _).
  destruct (started_option_cases unicode_lower cfg w w' Hmain)
    as (opts & Hg & Hcases).
  exists opts. split; [exact Hg|]. split.
  - rewrite E in Hg. cbn [goroutines set_goroutines] in Hg.
    apply app_inv_head in Hg. injection Hg as Hg.
    destruct (Z.to_nat (clients cfg)) eqn:En; [lia|].
    cbn [repeat] in Hg. injection Hg as <- _. cbn. tauto.
  - intros addrs Ha.
    assert (Hs : addrs = Split (brokers cfg)).
    { destruct (Hcases _ Ha)
        as [H|[H|[H|[H|[H|[(l & H)|[H|(c' & H)]]]]]]];
        try discriminate H. now injection H. }
    subst addrs. split; [apply Split_nonempty|].
    split; [apply Split_no_comma|]. split; [apply Split_concat|].
    now intros ->.
Qed.

Lemma seed_brokers_split_witness :
  exists opts,
    goroutines (snd (main ascii_only default_flags initial_world)) =
      goroutines initial_world ++
      GoPrintRate :: repeat (GoWorker opts) (Z.to_nat (clients default_flags)) /\
    In (SeedBrokers (Split (brokers default_flags))) opts /\
    forall addrs, In (SeedBrokers addrs) opts ->
      addrs <> [] /\
      Forall (fun a => no_comma a = true) addrs /\
      String.concat "," addrs = brokers default_flags /\
      (brokers default_flags = EmptyString -> addrs = [EmptyString]).
Proof.
  apply (seed_brokers_split ascii_only default_flags initial_world).
  vm_compute. reflexivity.
Defined.

(** ** Which diagnostic *)

(** X10: when several flags are wrong, the diagnostic is that of the first
    check in the order of [main]: the record size, then the log level,
    then the compression, then the number of clients. *)
Theorem diagnostic_precedence (unicode_lower : string -> string)
    (cfg : Config) (w : World) :
  (recordSize cfg <= 0 ->
   main unicode_lower cfg w =
   (Exited,
    exited w ("record bytes must be larger than zero" ++ newline)%string 1)) /\
  (0 < recordSize cfg ->
   ~ In (ToLower unicode_lower (logLevel cfg)) logLevel_names ->
   main unicode_lower cfg w =
   (Exited,
    exited w ("unrecognized log level " ++ logLevel cfg ++ newline)%string 1)) /\
  (0 < recordSize cfg ->
   In (ToLower unicode_lower (logLevel cfg)) logLevel_names ->
   ~ In (ToLower unicode_lower (compression cfg)) compression_names ->
   main unicode_lower cfg w =
   (Exited,
    exited w
      ("unrecognized compression " ++ compression cfg ++ newline)%string 1)) /\
  (0 < recordSize cfg ->
   In (ToLower unicode_lower (logLevel cfg)) logLevel_names ->
   In (ToLower unicode_lower (compression cfg)) compression_names ->
   clients cfg <= 0 ->
   main unicode_lower cfg w =
   (Exited,
    exited w ("number of clients must be positive" ++ newline)%string 1)).
Proof.
  destruct (main_outcome unicode_lower cfg w)
    as [(H1 & E) | [(H1 & H2 & E) | [(H1 & H2 & H3 & E) |
        [(H1 & H2 & H3 & H4 & E) | ((H1 & H2 & H3 & H4) & _)]]]];
    repeat split; intros; trivial; exfalso; tauto || lia.
Qed.

Lemma diagnostic_precedence_witness :
  main ascii_only all_wrong_flags initial_world =
  (Exited,
   exited initial_world
     ("record bytes must be larger than zero" ++ newline)%string 1) /\
  main ascii_only three_wrong_flags initial_world =
  (Exited,
   exited initial_world
     ("unrecognized log level " ++ logLevel three_wrong_flags ++ newline)%string
     1).
Proof.
  split.
  - apply (proj1 (diagnostic_precedence ascii_only all_wrong_flags
                    initial_world)).
    simpl. lia.
  - apply (proj1 (proj2 (diagnostic_precedence ascii_only three_wrong_flags
                           initial_world))).
    + simpl. lia.
    + unfold logLevel_names. simpl. intros H.
      repeat (destruct H as [H|H]; [discriminate H|]). exact H.
Defined.

(** ** The worker without a client *)

(** X11: when [kgo.NewClient] fails, the worker writes
    [unable to initialize client: ] and the error's text to standard
    error and the process exits with status 1: no record is formatted or
    handed to a client, and the counters are untouched. *)
Theorem worker_client_error (cfg : Config) (e : string) (k : nat)
    (w : World) :
  exists w',
    worker cfg (Some e) k w = (Exited, w') /\
    stderr w' =
      (stderr w ++ "unable to initialize client: " ++ e ++ newline)%string /\
    exitCode w' = Some 1 /\
    submitted w' = submitted w /\
    rateRecs w' = rateRecs w /\ rateBytes w' = rateBytes w /\
    forall k', run (produce_loop cfg k' 0) w' = w'.
Proof.
  eexists. split; [reflexivity|]. repeat split.
Qed.

(** ** The reporter *)

Lemma printRate_idle (k : nat) :
  forall w, rateRecs w = 0 -> rateBytes w = 0 ->
            exists w',
              printRate k w = (Val tt, w') /\
              rateRecs w' = 0 /\ rateBytes w' = 0 /\
              reports w' = reports w ++ repeat (0, 0) k /\
              stderr w' = stderr w /\ exitCode w' = exitCode w /\
              submitted w' = submitted w /\ goroutines w' = goroutines w.
Proof.
  induction k as [|k IH]; intros w Hr Hb; cbn [printRate repeat].
  - exists w. rewrite app_nil_r. repeat split; trivial.
  - destruct (printRate_tick_eq w) as (w1 & E1 & Hr1 & Hb1 & Hrep).
    assert (Hrest : stderr w1 = stderr w /\ exitCode w1 = exitCode w /\
                    submitted w1 = submitted w /\ goroutines w1 = goroutines w).
    { revert E1. unfold printRate_tick. cbv [bind SwapInt64 print_rate ret].
      intros E1. injection E1 as <-. repeat split. }
    destruct Hrest as (Hs & He & Hsub & Hg).
    destruct (IH w1 Hr1 Hb1) as (w' & E & Hr' & Hb' & Hrep' & Hs' & He' & Hsub' & Hg').
    exists w'. erewrite bind_val by exact E1.
    split; [exact E|]. rewrite Hrep', Hrep, Hr, Hb, <- app_assoc.
    repeat split; congruence.
Qed.

(** X12: [k+1] ticks in a row with no acknowledgment between them: the
    first line reports what the counters held, every later line reports
    zero bytes and zero records, and nothing but the counters and the
    lines printed changes. *)
Theorem printRate_ticks_in_a_row (k : nat) (w : World) :
  exists w',
    printRate (S k) w = (Val tt, w') /\
    reports w' = reports w ++ (rateBytes w, rateRecs w) :: repeat (0, 0) k /\
    rateRecs w' = 0 /\ rateBytes w' = 0 /\
    stderr w' = stderr w /\ exitCode w' = exitCode w /\
    submitted w' = submitted w /\ goroutines w' = goroutines w.
Proof.
  destruct (printRate_tick_eq w) as (w1 & E1 & Hr1 & Hb1 & Hrep).
  assert (Hrest : stderr w1 = stderr w /\ exitCode w1 = exitCode w /\
                  submitted w1 = submitted w /\ goroutines w1 = goroutines w).
  { revert E1. unfold printRate_tick. cbv [bind SwapInt64 print_rate ret].
    intros E1. injection E1 as <-. repeat split. }
  destruct Hrest as (Hs & He & Hsub & Hg).
  destruct (printRate_idle k w1 Hr1 Hb1)
    as (w' & E & Hr' & Hb' & Hrep' & Hs' & He' & Hsub' & Hg').
  exists w'. cbn [printRate]. erewrite bind_val by exact E1.
  split; [exact E|]. rewrite Hrep', Hrep, <- app_assoc.
  repeat split; congruence.
Qed.

(** X13: the two swaps of a tick are two steps, and a callback can run
    between them: there is a run of one callback and one tick in which the
    tick reads no record but the bytes of the record, and one in which it
    reads the record but none of its bytes. *)
Theorem tick_is_not_a_snapshot (size : Z) :
  0 < size <= Int64.max_int ->
  (exists tr,
     interleaving [tick_ops; callback_ops size] tr /\
     fst (exec_trace tr initial_world) = [(RateRecs, 0); (RateBytes, size)]) /\
  (exists tr,
     interleaving [tick_ops; callback_ops size] tr /\
     fst (exec_trace tr initial_world) = [(RateRecs, 1); (RateBytes, 0)]).
Proof.
  intros Hs.
  assert (Hw : Int64.wrap size = size).
  { apply Int64Facts.wrap_small.
    unfold Int64.in_range, Int64.min_int, Int64.max_int, Int64.half in *. lia. }
  assert (Ha : Int64.add 0 size = size).
  { unfold Int64.add. now rewrite Z.add_0_l. }
  split.
  - exists [OpSwap RateRecs 0; OpAdd RateRecs 1;
            OpAdd RateBytes (Int64.wrap size); OpSwap RateBytes 0].
    split.
    + apply (interleaving_step [] (OpSwap RateRecs 0) [OpSwap RateBytes 0]
               [callback_ops size]).
      apply (interleaving_step [[OpSwap RateBytes 0]] (OpAdd RateRecs 1)
               [OpAdd RateBytes (Int64.wrap size)] []).
      apply (interleaving_step [[OpSwap RateBytes 0]]
               (OpAdd RateBytes (Int64.wrap size)) [] []).
      apply (interleaving_step [] (OpSwap RateBytes 0) [] [[]]).
      apply interleaving_done. repeat constructor.
    + cbn [exec_trace fst snd AddInt64 SwapInt64 load store rateRecs rateBytes
           initial_world].
      now rewrite Hw, Ha.
  - exists [OpAdd RateRecs 1; OpSwap RateRecs 0; OpSwap RateBytes 0;
            OpAdd RateBytes (Int64.wrap size)].
    split.
    + apply (interleaving_step [tick_ops] (OpAdd RateRecs 1)
               [OpAdd RateBytes (Int64.wrap size)] []).
      apply (interleaving_step [] (OpSwap RateRecs 0) [OpSwap RateBytes 0]
               [[OpAdd RateBytes (Int64.wrap size)]]).
      apply (interleaving_step [] (OpSwap RateBytes 0) []
               [[OpAdd RateBytes (Int64.wrap size)]]).
      apply (interleaving_step [[]] (OpAdd RateBytes (Int64.wrap size)) [] []).
      apply interleaving_done. repeat constructor.
    + reflexivity.
Qed.

Lemma tick_is_not_a_snapshot_witness :
  (exists tr,
     interleaving [tick_ops; callback_ops 100] tr /\
     fst (exec_trace tr initial_world) = [(RateRecs, 0); (RateBytes, 100)]) /\
  (exists tr,
     interleaving [tick_ops; callback_ops 100] tr /\
     fst (exec_trace tr initial_world) = [(RateRecs, 1); (RateBytes, 0)]).
Proof.
  apply (tick_is_not_a_snapshot 100).
  unfold Int64.max_int, Int64.half. lia.
Defined.

(** ** What a tick can read *)

Lemma counter_eqb_eq (a b : counter) : counter_eqb a b = true <-> a = b.
Proof. destruct a, b; simpl; split; congruence. Qed.

(** While the total stays in range, every value a swap reads, and the
    value left in the counter, is between zero and the total. *)
Lemma exec_trace_reads_bounded (a : counter) (T : Z) (tr : list atomic_op) :
  T <= Int64.max_int ->
  forall w outs w',
    exec_trace tr w = (outs, w') ->
    Forall (fun o => 0 <= contrib a o) tr ->
    0 <= load a w ->
    load a w + added a tr <= T ->
    Forall (fun p => fst p = a -> 0 <= snd p <= T) outs /\
    0 <= load a w' <= T.
Proof.
  intros HT.
  induction tr as [|[b d|b n] tr IH]; intros w outs w' E Hpos Hw Hmax;
    cbn [exec_trace added] in *.
  - injection E as <- <-. split; [constructor | lia].
  - inversion Hpos as [|? ? Hd Hpos']; subst.
    pose proof (added_nonneg _ _ Hpos') as Hadd.
    assert (Hl : load a (snd (AddInt64 b d w)) =
                 load a w + contrib a (OpAdd b d)).
    { unfold AddInt64. cbn [snd contrib] in *. rewrite load_store.
      destruct (counter_eqb a b) eqn:Eab; [|lia].
      apply counter_eqb_eq in Eab. subst b.
      apply wrap_small.
      unfold Int64.in_range, Int64.min_int, Int64.max_int, Int64.half in *.
      lia. }
    apply (IH _ _ _ E Hpos'); rewrite Hl; lia.
  - inversion Hpos as [|? ? Hd Hpos']; subst.
    pose proof (added_nonneg _ _ Hpos') as Hadd.
    destruct (exec_trace tr _) as [o1 w1] eqn:E1. injection E as <- <-.
    assert (Hl : 0 <= load a (snd (SwapInt64 b n w)) /\
                 load a (snd (SwapInt64 b n w)) + added a tr <= T).
    { unfold SwapInt64. cbn [snd contrib] in *. rewrite load_store.
      destruct (counter_eqb a b); lia. }
    destruct (IH _ _ _ E1 Hpos' (proj1 Hl) (proj2 Hl)) as [IH1 IH2].
    split; [|exact IH2].
    constructor; [|exact IH1].
    cbn [fst snd]. intros ->. lia.
Qed.

(** X14: in a run of [N] workers with [M] acknowledged records of [size]
    bytes each, whose total of bytes is within [int64], no tick reads a
    negative number or more than was acknowledged in all, whatever the
    interleaving; the same holds for what the counters are left with. *)
Theorem reads_within_total (N M d : nat) (size : Z) tr outs w :
  0 < size <= Int64.max_int ->
  Z.of_nat N * Z.of_nat M * size <= Int64.max_int ->
  interleaving (reporter_ops d :: repeat (ack_ops M size) N) tr ->
  exec_trace tr initial_world = (outs, w) ->
  Forall (fun p => fst p = RateRecs ->
                   0 <= snd p <= Z.of_nat N * Z.of_nat M) outs /\
  Forall (fun p => fst p = RateBytes ->
                   0 <= snd p <= Z.of_nat N * Z.of_nat M * size) outs /\
  0 <= rateRecs w <= Z.of_nat N * Z.of_nat M /\
  0 <= rateBytes w <= Z.of_nat N * Z.of_nat M * size.
Proof.
  intros Hsize Hmax Hil He.
  assert (Htot : 0 <= Z.of_nat N * Z.of_nat M) by lia.
  assert (Hnn : forall a, 0 <= per_ack a size ->
                Forall (fun o => 0 <= contrib a o) tr).
  { intros a Ha. apply (interleaving_Forall _ _ _ Hil).
    constructor; [apply nonneg_reporter|].
    apply Forall_forall. intros t Ht. apply repeat_spec in Ht. subst t.
    now apply nonneg_ack_ops. }
  assert (Hadd : forall a, added a tr =
                           Z.of_nat N * Z.of_nat M * per_ack a size).
  { intros a. rewrite (interleaving_added a _ _ Hil).
    cbn [added_all fold_right].
    fold (added_all a (repeat (ack_ops M size) N)).
    rewrite added_reporter, added_all_repeat, added_ack_ops. lia. }
  assert (Hw : Int64.wrap size = size).
  { apply wrap_small.
    unfold Int64.in_range, Int64.min_int, Int64.max_int, Int64.half in *.
    lia. }
  destruct (exec_trace_reads_bounded RateRecs (Z.of_nat N * Z.of_nat M) tr
              ltac:(nia) initial_world outs w He) as [R1 R2].
  { apply Hnn. simpl. lia. }
  { simpl. lia. }
  { rewrite Hadd. simpl. lia. }
  destruct (exec_trace_reads_bounded RateBytes
              (Z.of_nat N * Z.of_nat M * size) tr
              Hmax initial_world outs w He) as [B1 B2].
  { apply Hnn. simpl. lia. }
  { simpl. lia. }
  { rewrite Hadd. simpl. rewrite Hw. lia. }
  auto.
Qed.

Lemma reads_within_total_witness :
  let tr := [OpAdd RateRecs 1; OpSwap RateRecs 0; OpAdd RateRecs 1;
             OpAdd RateBytes 10; OpSwap RateBytes 0; OpAdd RateBytes 10] in
  let outs := fst (exec_trace tr initial_world) in
  let w := snd (exec_trace tr initial_world) in
  Forall (fun p => fst p = RateRecs ->
                   0 <= snd p <= Z.of_nat 2 * Z.of_nat 1) outs /\
  Forall (fun p => fst p = RateBytes ->
                   0 <= snd p <= Z.of_nat 2 * Z.of_nat 1 * 10) outs /\
  0 <= rateRecs w <= Z.of_nat 2 * Z.of_nat 1 /\
  0 <= rateBytes w <= Z.of_nat 2 * Z.of_nat 1 * 10.
Proof.
  intros tr outs w.
  apply (reads_within_total 2 1 1 10 tr outs w).
  - unfold Int64.max_int, Int64.half. lia.
  - unfold Int64.max_int, Int64.half. simpl. lia.
  - apply (interleaving_step [reporter_ops 1] (OpAdd RateRecs 1)
             [OpAdd RateBytes 10] [ack_ops 1 10]).
    apply (interleaving_step [] (OpSwap RateRecs 0) [OpSwap RateBytes 0]
             [[OpAdd RateBytes 10]; ack_ops 1 10]).
    apply (interleaving_step [[OpSwap RateBytes 0]; [OpAdd RateBytes 10]]
             (OpAdd RateRecs 1) [OpAdd RateBytes 10] []).
    apply (interleaving_step [[OpSwap RateBytes 0]; [OpAdd RateBytes 10]]
             (OpAdd RateBytes 10) [] []).
    apply (interleaving_step [] (OpSwap RateBytes 0) []
             [[OpAdd RateBytes 10]; []]).
    apply (interleaving_step [[]] (OpAdd RateBytes 10) [] [[]]).
    apply interleaving_done. repeat constructor.
  - apply surjective_pairing.
Defined.

(** ** Records of one worker *)





(** ** Byte by byte *)

(** X16: the byte that [formatValue] leaves at index [i] of the slice is
    the byte of the tile at index [i] modulo the length of the tile. *)
Theorem formatValue_byte_at (num : Z) (v : bytes) (i : nat) :
  (i < length v)%nat ->
  exists out,
    formatValue num v = Done out /\
    nth_error out i = nth_error (tile num) (i mod length (tile num)) /\
    nth_error out i <> None.
Proof.
  intros Hi. eexists. split; [apply formatValue_tiled|].
  split; [now apply tiled_nth; [apply tile_nonempty|]|].
  apply nth_error_Some. now rewrite tiled_length by apply tile_nonempty.
Qed.

Lemma formatValue_byte_at_witness :
  exists out,
    formatValue 123 (make_bytes 10) = Done out /\
    nth_error out 9 = nth_error (tile 123) (9 mod length (tile 123)) /\
    nth_error out 9 <> None.
Proof.
  apply (formatValue_byte_at 123 (make_bytes 10) 9). simpl. lia.
Defined.



(** ** Any sequence of atomic operations *)

(** X18: for any sequence of atomic adds and swaps, from any state of the
    counters: what the swaps have read from a counter plus what the
    counter holds at the end is, modulo [2^64], what it held at the start
    plus what the adds and the swaps have put into it. *)
Theorem atomic_ops_conserve (a : counter) (tr : list atomic_op) (w : World) :
  Int64.wrap (drained a (fst (exec_trace tr w)) +
              load a (snd (exec_trace tr w))) =
  Int64.wrap (load a w + added a tr).
Proof.
  destruct (exec_trace tr w) as [outs w'] eqn:E.
  destruct (exec_trace_conserves a tr w outs w' E) as [k Hk].
  apply (Int64Facts.wrap_congr _ _ k). exact Hk.
Qed.
